(** * A shallow embedding of [ec2_termination.py]

    The script talks to EC2 through boto3, sleeps, reads the clock and
    reads operator input.  All of these are modelled as effects of a small
    state-and-exception monad [M]: the state holds a logical clock, which
    indexes every answer of the outside world (the [World] record), and the
    trace of externally visible events (provider calls, sleeps, prompts,
    rendered tables).  Python exceptions are the [Raise] branch of [result].
    Console output other than the rendered tables, the [Total] line and the
    input prompts is not modelled. *)

From Stdlib Require Import String Ascii List Bool Arith Lia.
Import ListNotations.
Open Scope string_scope.
Open Scope list_scope.

(** ** Exceptions *)

(** Errors raised by the provider client: [botocore.exceptions.ClientError]
    and every other botocore failure (connection errors, ...). *)
Inductive api_error :=
| ClientError (msg : string)
| BotoCoreError (msg : string).

Inductive exn :=
| ApiError (e : api_error)
| UnboundLocalError (var : string)
| IndexError
| SystemExit.

(** [except ClientError] *)
Definition is_ClientError (e : exn) : bool :=
  match e with ApiError (ClientError _) => true | _ => false end.

(** [except Exception]: everything but [SystemExit], a [BaseException]. *)
Definition is_Exception (e : exn) : bool :=
  match e with SystemExit => false | _ => true end.

(** What one provider call does: it answers, or it raises. *)
Inductive outcome (A : Type) :=
| Returned (a : A)
| Failed (e : api_error).
Arguments Returned {A} a.
Arguments Failed {A} e.

(** ** Provider data *)

Record tag := { Key : string; Value : string }.

(** An element of [reservation['Instances']]; a missing ['Tags'] key is the
    empty list, as [instance.get('Tags', [])] reads it. *)
Record instance_desc := {
  InstanceId : string;
  Tags : list tag;
  StateName : string }.

Definition reservation := list instance_desc.

(** A [describe_instances] response. *)
Record page := {
  Reservations : list reservation;
  NextToken : option string }.

(** [{'Name': ..., 'Values': [...]}] *)
Definition tag_filter := (string * list string)%type.

(** The keyword arguments of one [describe_instances] call. *)
Record describe_request := {
  rq_Filters : option (list tag_filter);
  rq_NextToken : option string }.

(** [datetime.datetime.now()] through its two [strftime] renderings. *)
Record timestamp := {
  ts_compact : string;   (** [%Y%m%d%H%M%S] *)
  ts_readable : string   (** [%Y-%m-%d %H:%M:%S] *) }.

(** The three [input(...)] prompts of [main]. *)
Inductive prompt :=
| PromptDisableProtections  (** Are you want to disable all protections ... (y/n) *)
| PromptContinueBackup      (** Press enter to continue to backup the instances... *)
| PromptContinueTerminate   (** Press enter to continue to terminate the instances... *).

(** The outside world: every answer is indexed by the clock value at which
    the request is made. *)
Record World := {
  w_describe_instances : nat -> describe_request -> outcome page;
  w_describe_instance_attribute : nat -> string -> string -> outcome bool;
  w_modify_instance_attribute : nat -> string -> string -> outcome unit;
  w_create_image : nat -> string -> string -> string -> outcome string;
  w_create_tags : nat -> string -> string -> outcome unit;
  (** the [CurrentState.Name] of every entry of [TerminatingInstances] *)
  w_terminate_instances : nat -> string -> outcome (list string);
  w_now : nat -> timestamp;
  w_input : nat -> string }.

(** ** Events and the monad *)

Inductive event :=
| EDescribeInstances (rq : describe_request)
| EDescribeInstanceAttribute (attr iid : string)
| EModifyInstanceAttribute (iid attr : string)
| ECreateImage (iid name descr : string) (no_reboot dry_run : bool)
| ECreateTags (ami name : string)
| ETerminateInstances (iid : string)
| ESleep (secs : nat)
| EInput (p : prompt)
| EDisplay (rows : nat)
| ETotal (n : nat).

(** Calls that change provider state. *)
Definition is_mutating (e : event) : bool :=
  match e with
  | EModifyInstanceAttribute _ _ | ECreateImage _ _ _ _ _
  | ECreateTags _ _ | ETerminateInstances _ => true
  | _ => false
  end.

Definition is_input (e : event) : bool :=
  match e with EInput _ => true | _ => false end.

Record St := { clock : nat; trace : list event }.

(** [OutOfFuel] stands for a [while] loop that has not finished. *)
Inductive result (A : Type) :=
| Ok (a : A)
| Raise (e : exn)
| OutOfFuel.
Arguments Ok {A} a.
Arguments Raise {A} e.
Arguments OutOfFuel {A}.

Definition M (A : Type) := St -> result A * St.

Definition ret {A} (a : A) : M A := fun s => (Ok a, s).

Definition bind {A B} (m : M A) (k : A -> M B) : M B :=
  fun s =>
    match m s with
    | (Ok a, s') => k a s'
    | (Raise e, s') => (Raise e, s')
    | (OutOfFuel, s') => (OutOfFuel, s')
    end.

Notation "x <- m ;; k" := (bind m (fun x => k))
  (at level 61, m at next level, right associativity).
Notation "m ;; k" := (bind m (fun _ => k))
  (at level 61, right associativity).

Definition raise {A} (e : exn) : M A := fun s => (Raise e, s).

Definition out_of_fuel {A} : M A := fun s => (OutOfFuel, s).

Definition emit (e : event) : M unit :=
  fun s => (Ok tt, {| clock := clock s; trace := trace s ++ [e] |}).

(** A request to the outside world: it is recorded, answered by the world
    at the current clock, and advances the clock. *)
Definition ask {A} (ev : event) (answer : nat -> outcome A) : M A :=
  fun s =>
    let s' := {| clock := S (clock s); trace := trace s ++ [ev] |} in
    match answer (clock s) with
    | Returned a => (Ok a, s')
    | Failed e => (Raise (ApiError e), s')
    end.

(** [try: m except <catches> as e: h e] *)
Definition try_except {A} (catches : exn -> bool) (m : M A) (h : exn -> M A) : M A :=
  fun s =>
    match m s with
    | (Raise e, s') => if catches e then h e s' else (Raise e, s')
    | r => r
    end.

(** Reading a local variable; [None] is a name not bound yet. *)
Definition read_local {A} (var : string) (v : option A) : M A :=
  match v with Some a => ret a | None => raise (UnboundLocalError var) end.

(** [for x in xs: results.append(f(x))] *)
Fixpoint for_each {A B} (f : A -> M B) (xs : list A) : M (list B) :=
  match xs with
  | [] => ret []
  | x :: rest => y <- f x;; ys <- for_each f rest;; ret (y :: ys)
  end.

Definition sleep (secs : nat) : M unit := emit (ESleep secs).

(** [display_data]: [data[0]] raises on an empty list and the bare
    [except] swallows it, so nothing is printed then. *)
Definition display_data {A} (data : list A) : M unit :=
  match data with
  | [] => ret tt
  | _ :: _ => emit (EDisplay (length data))
  end.

(** ASCII part of [str.lower]. *)
Definition lower_ascii (c : ascii) : ascii :=
  let n := nat_of_ascii c in
  if (65 <=? n)%nat && (n <=? 90)%nat then ascii_of_nat (n + 32)%nat else c.

Fixpoint lower (s : string) : string :=
  match s with
  | EmptyString => EmptyString
  | String c rest => String (lower_ascii c) (lower rest)
  end.

(** ** Records built by the script *)

(** An element of the list returned by [list_instances]. *)
Record inventory := {
  inv_name : string;
  inv_id : string;
  inv_state : string;
  inv_termination_protection : bool;
  inv_stop_protection : bool }.

(** The dictionary returned by [create_ami]. *)
Record backup_outcome := {
  bo_instance_name : string;
  bo_instance_id : string;
  bo_ami_id : string;
  bo_ami_name : string;
  bo_backup_completed : bool }.

(** An element of the list returned by [terminate_instances]. *)
Record termination_outcome := {
  to_instance_name : string;
  to_instance_id : string;
  to_terminate_completed : bool }.

(** ** The script's functions *)

Section Script.

Variable w : World.

Definition datetime_now : M timestamp :=
  fun s => (Ok (w_now w (clock s)), {| clock := S (clock s); trace := trace s |}).

Definition input (p : prompt) : M string :=
  fun s => (Ok (w_input w (clock s)),
            {| clock := S (clock s); trace := trace s ++ [EInput p] |}).

Fixpoint get_tag_value (tag_key : string) (tags : list tag) : string :=
  match tags with
  | [] => "N/A"
  | t :: rest => if String.eqb (Key t) tag_key then Value t else get_tag_value tag_key rest
  end.

Definition describe_instance_attribute (attr iid : string) : M bool :=
  ask (EDescribeInstanceAttribute attr iid)
      (fun k => w_describe_instance_attribute w k attr iid).

(** The pair [(termination, stop)]. *)
Definition get_protections_status (instance_id : string) : M (bool * bool) :=
  termination_protection_status <-
    describe_instance_attribute "disableApiTermination" instance_id;;
  stop_protection_status <- describe_instance_attribute "disableApiStop" instance_id;;
  ret (termination_protection_status, stop_protection_status).

Definition modify_instance_attribute (iid attr : string) : M unit :=
  ask (EModifyInstanceAttribute iid attr)
      (fun k => w_modify_instance_attribute w k iid attr).

Definition disable_instance_protections (instance_id : string)
    (disable_termination disable_stop : bool) : M unit :=
  (if disable_termination
   then modify_instance_attribute instance_id "disableApiTermination"
   else ret tt);;
  (if disable_stop
   then modify_instance_attribute instance_id "disableApiStop"
   else ret tt).

Definition describe_instances (rq : describe_request) : M page :=
  ask (EDescribeInstances rq) (fun k => w_describe_instances w k rq).

(** [while 'NextToken' in response: ...]; note that the continuation
    request carries only the token. *)
Fixpoint paginate (fuel : nat) (response : page) (reservations : list reservation)
    : M (list reservation) :=
  match NextToken response with
  | None => ret reservations
  | Some token =>
      match fuel with
      | O => out_of_fuel
      | S fuel' =>
          response' <- describe_instances {| rq_Filters := None; rq_NextToken := Some token |};;
          paginate fuel' response' (reservations ++ Reservations response')
      end
  end.

Definition is_actionable_state (st : string) : bool :=
  existsb (String.eqb st) ["running"; "stopping"; "stopped"].

(** The inner loop over [reservation['Instances']]. *)
Fixpoint collect_instances (insts : list instance_desc) : M (list inventory) :=
  match insts with
  | [] => ret []
  | instance :: rest =>
      let instance_name := get_tag_value "Name" (Tags instance) in
      protections_status <- get_protections_status (InstanceId instance);;
      tl <- collect_instances rest;;
      ret (if is_actionable_state (StateName instance)
           then {| inv_name := instance_name;
                   inv_id := InstanceId instance;
                   inv_state := StateName instance;
                   inv_termination_protection := fst protections_status;
                   inv_stop_protection := snd protections_status |} :: tl
           else tl)
  end.

Fixpoint collect_reservations (reservations : list reservation) : M (list inventory) :=
  match reservations with
  | [] => ret []
  | r :: rest =>
      hd <- collect_instances r;;
      tl <- collect_reservations rest;;
      ret (hd ++ tl)
  end.

Definition list_instances (fuel : nat) (tags : list tag_filter) : M (list inventory) :=
  response <- describe_instances {| rq_Filters := Some tags; rq_NextToken := None |};;
  reservations <- paginate fuel response (Reservations response);;
  collect_reservations reservations.

Definition ami_name_of (instance_id : string) (now : timestamp) : string :=
  ("EC2DeletionScript_" ++ instance_id ++ "_" ++ ts_compact now)%string.

Definition ami_description_of (now : timestamp) : string :=
  ("AMI created on " ++ ts_readable now ++ " by EC2 deletion script.")%string.

(** [ec2_client.create_image(..., NoReboot=True, DryRun=False)['ImageId']] *)
Definition create_image (instance_id ami_name ami_description : string) : M string :=
  ask (ECreateImage instance_id ami_name ami_description true false)
      (fun k => w_create_image w k instance_id ami_name ami_description).

Definition create_tags (ami_id ami_name : string) : M unit :=
  ask (ECreateTags ami_id ami_name) (fun k => w_create_tags w k ami_id ami_name).

(** The [try] block yields [inl image_id]; the [return] inside the inner
    [except] yields [inr outcome].  At that [return], [ami_id] has not been
    assigned (its only assignment is after the [try]). *)
Definition create_ami (instance : inventory) : M backup_outcome :=
  now <- datetime_now;;
  let ami_name := ami_name_of (inv_id instance) now in
  let ami_description := ami_description_of now in
  let ami_id : option string := None in
  attempt <-
    try_except is_ClientError
      (response <- create_image (inv_id instance) ami_name ami_description;;
       ret (inl response))
      (fun _ =>
         sleep 5;;
         try_except is_ClientError
           (response <- create_image (inv_id instance) ami_name ami_description;;
            ret (inl response))
           (fun _ =>
              aid <- read_local "ami_id" ami_id;;
              ret (inr {| bo_instance_name := inv_name instance;
                          bo_instance_id := inv_id instance;
                          bo_ami_id := aid;
                          bo_ami_name := ami_name;
                          bo_backup_completed := false |})));;
  match attempt with
  | inr early => ret early
  | inl response =>
      let ami_id := response in
      create_tags ami_id ami_name;;
      ret {| bo_instance_name := inv_name instance;
             bo_instance_id := inv_id instance;
             bo_ami_id := ami_id;
             bo_ami_name := ami_name;
             bo_backup_completed := true |}
  end.

Definition backup_instances (instances : list inventory) : M (list backup_outcome) :=
  for_each create_ami instances.

(** [response['TerminatingInstances'][0]] *)
Definition first_terminating (states : list string) : M string :=
  match states with
  | s :: _ => ret s
  | [] => raise IndexError
  end.

(** One iteration of the loop of [terminate_instances].  [status] is only
    reassigned after the last statement that can raise, so the [except]
    branch sees its initial [False]. *)
Definition terminate_one (instance : backup_outcome) : M termination_outcome :=
  let status := false in
  try_except is_Exception
    (response <- ask (ETerminateInstances (bo_instance_id instance))
                     (fun k => w_terminate_instances w k (bo_instance_id instance));;
     sleep 3;;
     result <- first_terminating response;;
     let status := if String.eqb result "shutting-down" then true else status in
     ret {| to_instance_name := bo_instance_name instance;
            to_instance_id := bo_instance_id instance;
            to_terminate_completed := status |})
    (fun _ =>
       ret {| to_instance_name := bo_instance_name instance;
              to_instance_id := bo_instance_id instance;
              to_terminate_completed := status |}).

Definition terminate_instances (instances : list backup_outcome)
    : M (list termination_outcome) :=
  for_each terminate_one instances.

Definition main_tags : list tag_filter :=
  [("tag:Project", ["Automation"]); ("tag:Environment", ["Test"; "Dev"])].

(** The [for ... break] loop computing [protections]. *)
Fixpoint any_protection (instances : list inventory) : bool :=
  match instances with
  | [] => false
  | i :: rest =>
      if inv_termination_protection i || inv_stop_protection i then true
      else any_protection rest
  end.

(** [main()]; [fuel] bounds each pagination loop. *)
Definition main (fuel : nat) : M unit :=
  instances <- list_instances fuel main_tags;;
  display_data instances;;
  emit (ETotal (length instances));;
  match instances with
  | [] => ret tt
  | _ :: _ =>
      instances <-
        (if any_protection instances then
           user_input <- input PromptDisableProtections;;
           if String.eqb (lower user_input) "y" then
             for_each (fun instance =>
                         disable_instance_protections (inv_id instance) true true)
                      instances;;
             instances <- list_instances fuel main_tags;;
             display_data instances;;
             ret instances
           else raise SystemExit
         else ret instances);;
      input PromptContinueBackup;;
      backup_results <- backup_instances instances;;
      display_data backup_results;;
      input PromptContinueTerminate;;
      terminate_results <- terminate_instances backup_results;;
      display_data terminate_results
  end.

End Script.

(** ** Reading the runs *)

Section Observations.

Variable w : World.

(** The Termination Stage's verdict as the claims state it: success iff the
    first reported state is [shutting-down]; a raising call (or an empty
    [TerminatingInstances]) is a failure. *)
Definition termination_status (o : outcome (list string)) : bool :=
  match o with
  | Returned (st :: _) => String.eqb st "shutting-down"
  | _ => false
  end.

Definition terminate_events (iid : string) (o : outcome (list string)) : list event :=
  match o with
  | Returned _ => [ETerminateInstances iid; ESleep 3]
  | Failed _ => [ETerminateInstances iid]
  end.

(** One outcome per element, the [j]-th one judged by the answer to the
    [j]-th termination request. *)
Fixpoint expected_terminations (k : nat) (l : list backup_outcome)
    : list termination_outcome :=
  match l with
  | [] => []
  | i :: rest =>
      {| to_instance_name := bo_instance_name i;
         to_instance_id := bo_instance_id i;
         to_terminate_completed :=
           termination_status (w_terminate_instances w k (bo_instance_id i)) |}
      :: expected_terminations (S k) rest
  end.

Fixpoint expected_termination_trace (k : nat) (l : list backup_outcome) : list event :=
  match l with
  | [] => []
  | i :: rest =>
      terminate_events (bo_instance_id i) (w_terminate_instances w k (bo_instance_id i))
      ++ expected_termination_trace (S k) rest
  end.

Definition is_terminate_event (e : event) : bool :=
  match e with ETerminateInstances _ => true | _ => false end.

(** A rejection that [except ClientError] catches. *)
Definition transient (o : outcome string) : bool :=
  match o with Failed (ClientError _) => true | _ => false end.

Definition is_retry_step (e : event) : bool :=
  match e with ECreateImage _ _ _ _ _ | ESleep _ => true | _ => false end.


(** What [create_ami] returns once an image [a] exists and the tagging call is
    made at clock [k]. *)
Definition after_tagging (i : inventory) (now : timestamp) (k : nat) (a : string)
    : result backup_outcome :=
  match w_create_tags w k a (ami_name_of (inv_id i) now) with
  | Returned _ =>
      Ok {| bo_instance_name := inv_name i;
            bo_instance_id := inv_id i;
            bo_ami_id := a;
            bo_ami_name := ami_name_of (inv_id i) now;
            bo_backup_completed := true |}
  | Failed e => Raise (ApiError e)
  end.

End Observations.

(** Events that neither change provider state nor ask the operator. *)
Definition readonly (e : event) : bool := negb (is_mutating e || is_input e).

(** [m] only appends events satisfying [P] to the trace. *)
Definition emits_only (P : event -> bool) {A} (m : M A) : Prop :=
  forall s, exists tr, trace (snd (m s)) = trace s ++ tr /\ forallb P tr = true.

(** The pages the pagination loop reads after the page [p] answered at
    clock [k - 1]: [rest] are their reservations, [k'] the clock after the
    last one.  Each further request carries the previous page's token. *)
Inductive fetched_rest (w : World) : nat -> page -> list reservation -> nat -> Prop :=
| fetched_last (k : nat) (p : page) :
    NextToken p = None -> fetched_rest w k p [] k
| fetched_next (k : nat) (p : page) (token : string) (rq : describe_request)
    (p' : page) (rs : list reservation) (k' : nat) :
    NextToken p = Some token ->
    rq_NextToken rq = Some token ->
    w_describe_instances w k rq = Returned p' ->
    fetched_rest w (S k) p' rs k' ->
    fetched_rest w k p (Reservations p' ++ rs) k'.

Definition inventory_key (r : inventory) : string * string * string :=
  (inv_name r, inv_id r, inv_state r).

Definition instance_key (i : instance_desc) : string * string * string :=
  (get_tag_value "Name" (Tags i), InstanceId i, StateName i).


(** ** Concrete inputs *)

Definition start : St := {| clock := 0; trace := [] |}.

Definition noon : timestamp :=
  {| ts_compact := "20240101120000"; ts_readable := "2024-01-01 12:00:00" |}.

Definition desc_web : instance_desc :=
  {| InstanceId := "i-1"; Tags := [{| Key := "Name"; Value := "web" |}];
     StateName := "running" |}.

Definition desc_db : instance_desc :=
  {| InstanceId := "i-2"; Tags := [{| Key := "Name"; Value := "db" |}];
     StateName := "stopped" |}.

Definition desc_gone : instance_desc :=
  {| InstanceId := "i-3"; Tags := [{| Key := "Name"; Value := "old" |}];
     StateName := "terminated" |}.

Definition inv_web : inventory :=
  {| inv_name := "web"; inv_id := "i-1"; inv_state := "running";
     inv_termination_protection := false; inv_stop_protection := false |}.

Definition inv_db : inventory :=
  {| inv_name := "db"; inv_id := "i-2"; inv_state := "stopped";
     inv_termination_protection := false; inv_stop_protection := false |}.

(** [inv_web] with termination protection on. *)
Definition protected_inventory : inventory :=
  {| inv_name := "web"; inv_id := "i-1"; inv_state := "running";
     inv_termination_protection := true; inv_stop_protection := false |}.

(** A single page holding one reservation. *)
Definition one_page (insts : list instance_desc) : nat -> describe_request -> outcome page :=
  fun _ _ => Returned {| Reservations := [insts]; NextToken := None |}.

(** Two pages: the first one points to the second. *)
Definition two_pages : nat -> describe_request -> outcome page :=
  fun _ rq =>
    match rq_NextToken rq with
    | None => Returned {| Reservations := [[desc_web]]; NextToken := Some "page-2" |}
    | Some _ => Returned {| Reservations := [[desc_db]]; NextToken := None |}
    end.

(** A provider whose answers do not depend on time; [protected] sets the
    termination-protection flag of every instance. *)
Definition mk_world (describe : nat -> describe_request -> outcome page)
    (protected : bool) (image : outcome string) (tagging : outcome unit)
    (answer : string) : World :=
  {| w_describe_instances := describe;
     w_describe_instance_attribute :=
       fun _ attr _ => Returned (protected && String.eqb attr "disableApiTermination");
     w_modify_instance_attribute := fun _ _ _ => Returned tt;
     w_create_image := fun _ _ _ _ => image;
     w_create_tags := fun _ _ _ => tagging;
     w_terminate_instances := fun _ _ => Returned ["shutting-down"];
     w_now := fun _ => noon;
     w_input := fun _ => answer |}.

Definition throttled : api_error := ClientError "RequestLimitExceeded".

Definition world_ok : World :=
  mk_world (one_page [desc_web]) false (Returned "ami-0001") (Returned tt) "".

Definition world_rejecting : World :=
  mk_world (one_page [desc_web]) false (Failed throttled) (Returned tt) "".

Definition world_untaggable : World :=
  mk_world (one_page [desc_web]) false (Returned "ami-0001") (Failed throttled) "".

Definition world_protected : World :=
  mk_world (one_page [desc_web]) true (Returned "ami-0001") (Returned tt) "n".

Definition world_empty : World :=
  mk_world (one_page []) false (Returned "ami-0001") (Returned tt) "".

Definition world_paged : World :=
  mk_world two_pages false (Returned "ami-0001") (Returned tt) "".

Definition world_gone : World :=
  mk_world (one_page [desc_gone]) false (Returned "ami-0001") (Returned tt) "".

(** A protected instance whose operator answers [Y]. *)
Definition world_affirming : World :=
  mk_world (one_page [desc_web]) true (Returned "ami-0001") (Returned tt) "Y".

(** A protected instance whose flags cannot be cleared. *)
Definition world_locked : World :=
  {| w_describe_instances := one_page [desc_web];
     w_describe_instance_attribute :=
       fun _ attr _ => Returned (String.eqb attr "disableApiTermination");
     w_modify_instance_attribute := fun _ _ _ => Failed throttled;
     w_create_image := fun _ _ _ _ => Returned "ami-0001";
     w_create_tags := fun _ _ _ => Returned tt;
     w_terminate_instances := fun _ _ => Returned ["shutting-down"];
     w_now := fun _ => noon;
     w_input := fun _ => "y" |}.

(** Images are created, but tagging fails from clock 4 on. *)
Definition world_tagging_fails_late : World :=
  {| w_describe_instances := one_page [desc_web; desc_db];
     w_describe_instance_attribute := fun _ _ _ => Returned false;
     w_modify_instance_attribute := fun _ _ _ => Returned tt;
     w_create_image := fun _ _ _ _ => Returned "ami-0001";
     w_create_tags := fun k _ _ => if Nat.leb 4 k then Failed throttled else Returned tt;
     w_terminate_instances := fun _ _ => Returned ["shutting-down"];
     w_now := fun _ => noon;
     w_input := fun _ => "" |}.

(** A Backup Stage outcome recording a failed backup. *)
Definition failed_backup : backup_outcome :=
  {| bo_instance_name := "web"; bo_instance_id := "i-1"; bo_ami_id := "";
     bo_ami_name := "EC2DeletionScript_i-1_20240101120000";
     bo_backup_completed := false |}.

(** The two attribute reads [get_protections_status] makes for one instance. *)
Definition attr_reads (iid : string) : list event :=
  [EDescribeInstanceAttribute "disableApiTermination" iid;
   EDescribeInstanceAttribute "disableApiStop" iid].

Definition is_attribute_read (e : event) : bool :=
  match e with EDescribeInstanceAttribute _ _ => true | _ => false end.

(** A [describe_instances] request that carries no tag filter. *)
Definition unfiltered_describe (e : event) : bool :=
  match e with
  | EDescribeInstances rq => match rq_Filters rq with None => true | Some _ => false end
  | _ => true
  end.

(** The two calls of [disable_instance_protections(..., True, True)]. *)
Definition clear_events (iid : string) : list event :=
  [EModifyInstanceAttribute iid "disableApiTermination";
   EModifyInstanceAttribute iid "disableApiStop"].

Definition no_termination (e : event) : bool := negb (is_terminate_event e).

(** Every value [m] returns satisfies [R]. *)
Definition returns_only {A} (R : A -> Prop) (m : M A) : Prop :=
  forall s a s', m s = (Ok a, s') -> R a.

(** Events outside the protection guard of [main]: no flag cleared, no
    yes/no question, no listing and no attribute read. *)
Definition guard_free (e : event) : bool :=
  match e with
  | EModifyInstanceAttribute _ _ | EInput PromptDisableProtections
  | EDescribeInstances _ | EDescribeInstanceAttribute _ _ => false
  | _ => true
  end.

(** ** Lemmas *)

Section Properties.

Variable w : World.

Lemma terminate_one_run (i : backup_outcome) (s : St) :
  terminate_one w i s =
  (Ok {| to_instance_name := bo_instance_name i;
         to_instance_id := bo_instance_id i;
         to_terminate_completed :=
           termination_status (w_terminate_instances w (clock s) (bo_instance_id i)) |},
   {| clock := S (clock s);
      trace := trace s ++ terminate_events (bo_instance_id i)
                 (w_terminate_instances w (clock s) (bo_instance_id i)) |}).
Proof.
  unfold terminate_one, try_except, bind, ask, sleep, emit, first_terminating, ret, raise.
  destruct (w_terminate_instances w (clock s) (bo_instance_id i)) as [[|st rest]|e];
    cbn [clock trace termination_status terminate_events is_Exception];
    [| destruct (String.eqb st "shutting-down") |]; rewrite <- ?app_assoc; reflexivity.
Qed.

Lemma terminate_instances_run (l : list backup_outcome) (s : St) :
  terminate_instances w l s =
  (Ok (expected_terminations w (clock s) l),
   {| clock := clock s + length l;
      trace := trace s ++ expected_termination_trace w (clock s) l |}).
Proof.
  revert s; induction l as [|i rest IH]; intros [k tr].
  - cbn. rewrite Nat.add_0_r, app_nil_r. reflexivity.
  - unfold terminate_instances; cbn [for_each].
    unfold bind at 1. rewrite terminate_one_run.
    unfold bind. fold (terminate_instances w rest). rewrite IH.
    cbn. rewrite app_assoc, Nat.add_succ_r. reflexivity.
Qed.

Lemma filter_terminate_events (iid : string) (o : outcome (list string)) :
  filter is_terminate_event (terminate_events iid o) = [ETerminateInstances iid].
Proof. destruct o; reflexivity. Qed.

(** Every element gets exactly one termination request, in order. *)
Lemma terminate_instances_requests (l : list backup_outcome) (s : St) :
  filter is_terminate_event (trace (snd (terminate_instances w l s))) =
  filter is_terminate_event (trace s)
  ++ map (fun i => ETerminateInstances (bo_instance_id i)) l.
Proof.
  rewrite terminate_instances_run; cbn [snd trace].
  rewrite filter_app. f_equal.
  generalize (clock s); induction l as [|i rest IH]; intros k; [reflexivity|].
  cbn [expected_termination_trace map].
  rewrite filter_app, filter_terminate_events, IH. reflexivity.
Qed.

Lemma expected_terminations_ids (k : nat) (l : list backup_outcome) :
  map (fun o => (to_instance_name o, to_instance_id o)) (expected_terminations w k l) =
  map (fun i => (bo_instance_name i, bo_instance_id i)) l.
Proof.
  revert k; induction l as [|i rest IH]; intros k; [reflexivity|].
  cbn. rewrite IH. reflexivity.
Qed.

(** The image-creation requests of [create_ami] and the events after them. *)
Lemma create_ami_trace (i : inventory) (s : St) :
  let now := w_now w (clock s) in
  let attempt := ECreateImage (inv_id i) (ami_name_of (inv_id i) now)
                   (ami_description_of now) true false in
  exists rest,
    trace (snd (create_ami w i s)) =
      trace s
      ++ (if transient (w_create_image w (S (clock s)) (inv_id i)
                          (ami_name_of (inv_id i) now) (ami_description_of now))
          then [attempt; ESleep 5; attempt] else [attempt])
      ++ rest
    /\ forallb (fun e => negb (is_retry_step e)) rest = true.
Proof.
  destruct s as [k tr]; cbn zeta.
  unfold create_ami, create_image, create_tags, bind, datetime_now, try_except, ask,
    sleep, emit, read_local, raise, ret.
  cbn [clock trace fst snd].
  destruct (w_create_image w (S k) _ _ _) as [a|[m|m]] eqn:E1;
    cbn [transient is_ClientError clock trace].
  - destruct (w_create_tags w (S (S k)) a (ami_name_of (inv_id i) (w_now w k)));
      exists [ECreateTags a (ami_name_of (inv_id i) (w_now w k))];
      rewrite <- ?app_assoc; split; reflexivity.
  - destruct (w_create_image w (S (S k)) _ _ _) as [a|[m'|m']] eqn:E2;
      cbn [is_ClientError clock trace].
    + destruct (w_create_tags w (S (S (S k))) a (ami_name_of (inv_id i) (w_now w k)));
        exists [ECreateTags a (ami_name_of (inv_id i) (w_now w k))];
        rewrite <- ?app_assoc; split; reflexivity.
    + exists []; rewrite <- ?app_assoc; split; reflexivity.
    + exists []; rewrite <- ?app_assoc; split; reflexivity.
  - exists []; rewrite <- ?app_assoc; split; reflexivity.
Qed.

Lemma create_ami_result (i : inventory) (s : St) :
  let now := w_now w (clock s) in
  let n := ami_name_of (inv_id i) now in
  let d := ami_description_of now in
  fst (create_ami w i s) =
  match w_create_image w (S (clock s)) (inv_id i) n d with
  | Returned a => after_tagging w i now (S (S (clock s))) a
  | Failed (ClientError _) =>
      match w_create_image w (S (S (clock s))) (inv_id i) n d with
      | Returned a => after_tagging w i now (S (S (S (clock s)))) a
      | Failed (ClientError _) => Raise (UnboundLocalError "ami_id")
      | Failed e => Raise (ApiError e)
      end
  | Failed e => Raise (ApiError e)
  end.
Proof.
  destruct s as [k tr]; cbn zeta.
  unfold create_ami, create_image, create_tags, after_tagging, bind, datetime_now,
    try_except, ask, sleep, emit, read_local, raise, ret.
  cbn [clock trace fst snd].
  destruct (w_create_image w (S k) _ _ _) as [a|[m|m]];
    cbn [is_ClientError clock trace fst].
  - destruct (w_create_tags w (S (S k)) a (ami_name_of (inv_id i) (w_now w k)));
      reflexivity.
  - destruct (w_create_image w (S (S k)) _ _ _) as [a|[m'|m']];
      cbn [is_ClientError clock trace fst]; try reflexivity.
    destruct (w_create_tags w (S (S (S k))) a (ami_name_of (inv_id i) (w_now w k)));
      reflexivity.
  - reflexivity.
Qed.

(** An exception of one iteration leaves the loop of [backup_instances]. *)
Lemma backup_instances_raise (i : inventory) (rest : list inventory) (s : St) (e : exn) :
  fst (create_ami w i s) = Raise e ->
  backup_instances w (i :: rest) s = (Raise e, snd (create_ami w i s)).
Proof.
  intros H. unfold backup_instances; cbn [for_each]. unfold bind at 1.
  destruct (create_ami w i s) as [r s']; cbn [fst] in H; subst r. reflexivity.
Qed.

(** An exception raised by the iteration on [x], after the elements of
    [pre] have been processed, ends the loop there. *)
Lemma for_each_app_raise {A B} (f : A -> M B) (pre post : list A) (x : A)
    (s0 s : St) (outs : list B) (e : exn) :
  for_each f pre s0 = (Ok outs, s) -> fst (f x s) = Raise e ->
  for_each f (pre ++ x :: post) s0 = (Raise e, snd (f x s)).
Proof.
  revert s0 outs; induction pre as [|y pre IH]; intros s0 outs Hpre Hx.
  - injection Hpre as _ <-. cbn [app for_each]. unfold bind at 1.
    destruct (f x s0) as [r s']; cbn [fst] in Hx; subst r. reflexivity.
  - cbn [app for_each] in Hpre |- *. unfold bind at 1 in Hpre. unfold bind at 1.
    destruct (f y s0) as [[b|e'|] s1]; try discriminate Hpre.
    unfold bind in Hpre. unfold bind at 1.
    destruct (for_each f pre s1) as [[bs|e'|] s2] eqn:Er; try discriminate Hpre.
    injection Hpre as _ <-. rewrite (IH s1 bs Er Hx). reflexivity.
Qed.

Lemma create_ami_ok_completed (i : inventory) (s : St) (o : backup_outcome) :
  fst (create_ami w i s) = Ok o -> bo_backup_completed o = true.
Proof.
  rewrite create_ami_result; cbn zeta.
  unfold after_tagging.
  destruct (w_create_image w (S (clock s)) _ _ _) as [a|[m|m]];
    [|destruct (w_create_image w (S (S (clock s))) _ _ _) as [a|[m'|m']]|];
    try destruct (w_create_tags _ _ _ _); intros H; inversion H; reflexivity.
Qed.

(** *** Read-only listing *)

Lemma emits_only_ret {A} (P : event -> bool) (a : A) : emits_only P (ret a).
Proof. intros s; exists []; split; [symmetry; apply app_nil_r | reflexivity]. Qed.

Lemma emits_only_out_of_fuel {A} (P : event -> bool) : emits_only P (@out_of_fuel A).
Proof. intros s; exists []; split; [symmetry; apply app_nil_r | reflexivity]. Qed.

Lemma emits_only_ask {A} (P : event -> bool) (ev : event) (answer : nat -> outcome A) :
  P ev = true -> emits_only P (ask ev answer).
Proof.
  intros H s; exists [ev]; unfold ask.
  destruct (answer (clock s)); cbn; rewrite H; split; reflexivity.
Qed.

Lemma emits_only_bind {A B} (P : event -> bool) (m : M A) (k : A -> M B) :
  emits_only P m -> (forall a, emits_only P (k a)) -> emits_only P (bind m k).
Proof.
  intros Hm Hk s. unfold bind.
  destruct (Hm s) as [tr1 [E1 F1]].
  destruct (m s) as [[a|e|] s']; cbn [snd] in E1 |- *.
  - destruct (Hk a s') as [tr2 [E2 F2]].
    exists (tr1 ++ tr2). rewrite E2, E1, app_assoc, forallb_app, F1, F2. split; reflexivity.
  - exists tr1; split; assumption.
  - exists tr1; split; assumption.
Qed.

Lemma paginate_readonly (fuel : nat) (response : page) (acc : list reservation) :
  emits_only readonly (paginate w fuel response acc).
Proof.
  revert response acc; induction fuel as [|fuel IH]; intros response acc; cbn [paginate];
    destruct (NextToken response) as [token|].
  - apply emits_only_out_of_fuel.
  - apply emits_only_ret.
  - apply emits_only_bind; [apply emits_only_ask; reflexivity | intros; apply IH].
  - apply emits_only_ret.
Qed.

Lemma get_protections_status_readonly (iid : string) :
  emits_only readonly (get_protections_status w iid).
Proof.
  unfold get_protections_status, describe_instance_attribute.
  apply emits_only_bind; [apply emits_only_ask; reflexivity | intros].
  apply emits_only_bind; [apply emits_only_ask; reflexivity | intros].
  apply emits_only_ret.
Qed.

Lemma collect_reservations_readonly (rs : list reservation) :
  emits_only readonly (collect_reservations w rs).
Proof.
  induction rs as [|r rest IH]; cbn [collect_reservations]; [apply emits_only_ret|].
  apply emits_only_bind; [|intros; apply emits_only_bind; [apply IH | intros; apply emits_only_ret]].
  induction r as [|i is IHi]; cbn [collect_instances]; [apply emits_only_ret|].
  apply emits_only_bind; [apply get_protections_status_readonly | intros].
  apply emits_only_bind; [apply IHi | intros; apply emits_only_ret].
Qed.

Lemma list_instances_readonly (fuel : nat) (tags : list tag_filter) :
  emits_only readonly (list_instances w fuel tags).
Proof.
  unfold list_instances, describe_instances.
  apply emits_only_bind; [apply emits_only_ask; reflexivity | intros].
  apply emits_only_bind; [apply paginate_readonly | intros].
  apply collect_reservations_readonly.
Qed.

(** *** Pagination and the state filter *)

Lemma paginate_fetched (fuel : nat) (response : page) (acc : list reservation)
    (s s' : St) (rs : list reservation) :
  paginate w fuel response acc s = (Ok rs, s') ->
  exists more, rs = acc ++ more /\ fetched_rest w (clock s) response more (clock s').
Proof.
  revert response acc s; induction fuel as [|fuel IH]; intros response acc s H;
    cbn [paginate] in H; destruct (NextToken response) as [token|] eqn:Et.
  - discriminate H.
  - injection H as <- <-. exists []. split; [symmetry; apply app_nil_r|]. now constructor.
  - unfold bind, describe_instances, ask in H.
    destruct (w_describe_instances w (clock s) _) as [p'|e] eqn:Ed; [|discriminate H].
    apply IH in H as [more [Hrs Hf]]; cbn [clock] in Hf.
    exists (Reservations p' ++ more). split.
    + rewrite Hrs, app_assoc. reflexivity.
    + eapply (fetched_next w _ _ token {| rq_Filters := None; rq_NextToken := Some token |});
        [exact Et | reflexivity | exact Ed | exact Hf].
  - injection H as <- <-. exists []. split; [symmetry; apply app_nil_r|]. now constructor.
Qed.

Lemma collect_instances_keys (insts : list instance_desc) (s s' : St) (l : list inventory) :
  collect_instances w insts s = (Ok l, s') ->
  map inventory_key l =
  map instance_key (filter (fun i => is_actionable_state (StateName i)) insts).
Proof.
  revert s s' l; induction insts as [|i is IH]; intros s s' l H; cbn [collect_instances] in H.
  - injection H as <- _. reflexivity.
  - unfold bind at 1 in H.
    destruct (get_protections_status w (InstanceId i) s) as [[p|e|] s1]; try discriminate H.
    unfold bind in H.
    destruct (collect_instances w is s1) as [[tl|e|] s2] eqn:Ec; try discriminate H.
    injection H as <- _. apply IH in Ec.
    cbn [filter]. destruct (is_actionable_state (StateName i)); cbn [map]; rewrite Ec; reflexivity.
Qed.

Lemma collect_reservations_keys (rs : list reservation) (s s' : St) (l : list inventory) :
  collect_reservations w rs s = (Ok l, s') ->
  map inventory_key l =
  map instance_key (filter (fun i => is_actionable_state (StateName i)) (concat rs)).
Proof.
  revert s s' l; induction rs as [|r rest IH]; intros s s' l H; cbn [collect_reservations] in H.
  - injection H as <- _. reflexivity.
  - unfold bind at 1 in H.
    destruct (collect_instances w r s) as [[hd|e|] s1] eqn:Eh; try discriminate H.
    unfold bind in H.
    destruct (collect_reservations w rest s1) as [[tl|e|] s2] eqn:Et; try discriminate H.
    injection H as <- _.
    cbn [concat]. rewrite filter_app, !map_app.
    rewrite (collect_instances_keys r s s1 hd Eh), (IH s1 s2 tl Et). reflexivity.
Qed.

Lemma any_protection_none (insts : list inventory) :
  forallb (fun i => negb (inv_termination_protection i || inv_stop_protection i)) insts = true ->
  any_protection insts = false.
Proof.
  induction insts as [|i rest IH]; cbn [forallb any_protection]; [reflexivity|].
  destruct (inv_termination_protection i || inv_stop_protection i); [discriminate|exact IH].
Qed.

Lemma bind_extends {A B} (m : M A) (k : A -> M B) (s : St) :
  (forall a, emits_only (fun _ => true) (k a)) ->
  exists tr, trace (snd (bind m k s)) = trace (snd (m s)) ++ tr.
Proof.
  intros Hk. unfold bind. destruct (m s) as [[a| |] s1]; cbn [snd].
  - destruct (Hk a s1) as [tr [E _]]. exists tr; exact E.
  - exists []; symmetry; apply app_nil_r.
  - exists []; symmetry; apply app_nil_r.
Qed.

Lemma bind_ok {A B} (m : M A) (k : A -> M B) (s s' : St) (a : A) :
  m s = (Ok a, s') -> bind m k s = k a s'.
Proof. intros H; unfold bind; rewrite H; reflexivity. Qed.

Lemma list_instances_trace (fuel : nat) (tags : list tag_filter) (s s' : St)
    (r : result (list inventory)) :
  list_instances w fuel tags s = (r, s') ->
  exists tr, trace s' = trace s ++ tr /\ forallb readonly tr = true.
Proof.
  intros H. destruct (list_instances_readonly fuel tags s) as [tr [E F]].
  rewrite H in E; cbn [snd] in E. exists tr; split; assumption.
Qed.

Lemma any_protection_In (insts : list inventory) :
  (exists i, In i insts /\ (inv_termination_protection i || inv_stop_protection i) = true) ->
  any_protection insts = true.
Proof.
  intros [i [Hin Hp]]; induction insts as [|j rest IH]; [destruct Hin|].
  cbn [any_protection]. destruct Hin as [<-|Hin].
  - rewrite Hp; reflexivity.
  - destruct (inv_termination_protection j || inv_stop_protection j); [reflexivity|].
    apply IH, Hin.
Qed.

End Properties.

(** *** Traces of whole computations *)

Section Traces.

Variable w : World.

Lemma emits_only_mono {A} (P Q : event -> bool) (m : M A) :
  (forall e, P e = true -> Q e = true) -> emits_only P m -> emits_only Q m.
Proof.
  intros HPQ Hm s. destruct (Hm s) as [tr [E F]]. exists tr. split; [exact E|].
  apply forallb_forall. intros e Hin. apply HPQ. rewrite forallb_forall in F. now apply F.
Qed.

Lemma emits_only_emit (P : event -> bool) (e : event) :
  P e = true -> emits_only P (emit e).
Proof. intros H s. exists [e]. cbn. rewrite H. split; reflexivity. Qed.

Lemma emits_only_raise {A} (P : event -> bool) (e : exn) : emits_only P (@raise A e).
Proof. intros s; exists []; split; [symmetry; apply app_nil_r | reflexivity]. Qed.

Lemma emits_only_try_except {A} (P : event -> bool) (c : exn -> bool) (m : M A)
    (h : exn -> M A) :
  emits_only P m -> (forall e, emits_only P (h e)) -> emits_only P (try_except c m h).
Proof.
  intros Hm Hh s. unfold try_except.
  destruct (Hm s) as [tr1 [E1 F1]].
  destruct (m s) as [[a|e|] s']; cbn [snd] in E1 |- *; try (exists tr1; split; assumption).
  destruct (c e); cbn [snd]; [|exists tr1; split; assumption].
  destruct (Hh e s') as [tr2 [E2 F2]].
  exists (tr1 ++ tr2). rewrite E2, E1, app_assoc, forallb_app, F1, F2. split; reflexivity.
Qed.

Lemma emits_only_for_each {A B} (P : event -> bool) (f : A -> M B) (xs : list A) :
  (forall x, emits_only P (f x)) -> emits_only P (for_each f xs).
Proof.
  intros Hf; induction xs as [|x rest IH]; cbn [for_each]; [apply emits_only_ret|].
  apply emits_only_bind; [apply Hf | intros; apply emits_only_bind; [apply IH | intros]].
  apply emits_only_ret.
Qed.

Lemma emits_only_input (P : event -> bool) (p : prompt) :
  P (EInput p) = true -> emits_only P (input w p).
Proof. intros H s. exists [EInput p]. cbn. rewrite H. split; reflexivity. Qed.

Lemma emits_only_datetime_now (P : event -> bool) : emits_only P (datetime_now w).
Proof. intros s; exists []; split; [symmetry; apply app_nil_r | reflexivity]. Qed.

Lemma emits_only_read_local {A} (P : event -> bool) (var : string) (v : option A) :
  emits_only P (read_local var v).
Proof. destruct v; [apply emits_only_ret | apply emits_only_raise]. Qed.

Lemma emits_only_display_data {A} (P : event -> bool) (data : list A) :
  (forall n, P (EDisplay n) = true) -> emits_only P (display_data data).
Proof. intros H; destruct data; [apply emits_only_ret | apply emits_only_emit, H]. Qed.

Lemma create_ami_no_termination (i : inventory) :
  emits_only no_termination (create_ami w i).
Proof.
  unfold create_ami, create_image, create_tags, sleep.
  apply emits_only_bind; [apply emits_only_datetime_now | intros now].
  apply emits_only_bind.
  - apply emits_only_try_except.
    + apply emits_only_bind; [apply emits_only_ask; reflexivity | intros; apply emits_only_ret].
    + intros e. apply emits_only_bind; [apply emits_only_emit; reflexivity | intros].
      apply emits_only_try_except.
      * apply emits_only_bind; [apply emits_only_ask; reflexivity | intros; apply emits_only_ret].
      * intros e'. apply emits_only_bind; [apply emits_only_read_local | intros; apply emits_only_ret].
  - intros [a|early]; [|apply emits_only_ret].
    apply emits_only_bind; [apply emits_only_ask; reflexivity | intros; apply emits_only_ret].
Qed.

Lemma backup_instances_no_termination (insts : list inventory) :
  emits_only no_termination (backup_instances w insts).
Proof. apply emits_only_for_each, create_ami_no_termination. Qed.

Lemma backup_instances_completed (insts : list inventory) :
  returns_only (fun outs => forallb bo_backup_completed outs = true) (backup_instances w insts).
Proof.
  intros s; revert s; induction insts as [|i rest IH]; intros s outs s' H.
  - injection H as <- _. reflexivity.
  - unfold backup_instances in H; cbn [for_each] in H. unfold bind at 1 in H.
    destruct (create_ami w i s) as [[o|e|] s1] eqn:Ec; try discriminate H.
    unfold bind in H.
    destruct (for_each (create_ami w) rest s1) as [[os|e|] s2] eqn:Er; try discriminate H.
    injection H as <- _. cbn [forallb].
    rewrite (create_ami_ok_completed w i s o); [|rewrite Ec; reflexivity].
    exact (IH s1 os s2 Er).
Qed.

Lemma filter_no_termination (tr : list event) :
  forallb no_termination tr = true -> filter is_terminate_event tr = [].
Proof.
  induction tr as [|e tr IH]; intros F; [reflexivity|].
  cbn [forallb] in F. apply andb_prop in F as [Fe Ft].
  unfold no_termination in Fe. cbn [filter].
  destruct (is_terminate_event e); [discriminate Fe|]. apply IH, Ft.
Qed.

Lemma readonly_no_termination (e : event) : readonly e = true -> no_termination e = true.
Proof. destruct e; cbn; tauto. Qed.

Lemma list_instances_no_termination (fuel : nat) (tags : list tag_filter) :
  emits_only no_termination (list_instances w fuel tags).
Proof.
  eapply emits_only_mono; [apply readonly_no_termination | apply list_instances_readonly].
Qed.

Lemma disable_instance_protections_no_termination (iid : string) (dt ds : bool) :
  emits_only no_termination (disable_instance_protections w iid dt ds).
Proof.
  unfold disable_instance_protections, modify_instance_attribute.
  apply emits_only_bind; [destruct dt; [apply emits_only_ask; reflexivity | apply emits_only_ret]|].
  intros _; destruct ds; [apply emits_only_ask; reflexivity | apply emits_only_ret].
Qed.

Lemma paginate_emits (P : event -> bool) (fuel : nat) (response : page)
    (acc : list reservation) :
  (forall t, P (EDescribeInstances {| rq_Filters := None; rq_NextToken := Some t |}) = true) ->
  emits_only P (paginate w fuel response acc).
Proof.
  intros HP; revert response acc; induction fuel as [|fuel IH]; intros response acc;
    cbn [paginate]; destruct (NextToken response) as [token|].
  - apply emits_only_out_of_fuel.
  - apply emits_only_ret.
  - apply emits_only_bind; [apply emits_only_ask, HP | intros; apply IH].
  - apply emits_only_ret.
Qed.

Lemma collect_reservations_emits (P : event -> bool) (rs : list reservation) :
  (forall a i, P (EDescribeInstanceAttribute a i) = true) ->
  emits_only P (collect_reservations w rs).
Proof.
  intros HP.
  induction rs as [|r rest IH]; cbn [collect_reservations]; [apply emits_only_ret|].
  apply emits_only_bind; [|intros; apply emits_only_bind; [apply IH | intros; apply emits_only_ret]].
  induction r as [|i is IHi]; cbn [collect_instances]; [apply emits_only_ret|].
  apply emits_only_bind; [|intros; apply emits_only_bind; [apply IHi | intros; apply emits_only_ret]].
  unfold get_protections_status, describe_instance_attribute.
  apply emits_only_bind; [apply emits_only_ask, HP | intros].
  apply emits_only_bind; [apply emits_only_ask, HP | intros; apply emits_only_ret].
Qed.

Lemma get_protections_status_ok (iid : string) (s s' : St) (p : bool * bool) :
  get_protections_status w iid s = (Ok p, s') ->
  trace s' = trace s ++ attr_reads iid
  /\ w_describe_instance_attribute w (clock s) "disableApiTermination" iid = Returned (fst p)
  /\ w_describe_instance_attribute w (S (clock s)) "disableApiStop" iid = Returned (snd p).
Proof.
  unfold get_protections_status, describe_instance_attribute, bind, ask, ret.
  destruct (w_describe_instance_attribute w (clock s) _ iid) as [t|e] eqn:E1;
    [|discriminate]; cbn [clock trace].
  destruct (w_describe_instance_attribute w (S (clock s)) _ iid) as [st|e] eqn:E2;
    [|discriminate].
  intros H; injection H as <- <-. cbn. rewrite <- app_assoc. auto.
Qed.



Lemma collect_reservations_reads (rs : list reservation) (s s' : St) (l : list inventory) :
  collect_reservations w rs s = (Ok l, s') ->
  trace s' = trace s ++ flat_map (fun i => attr_reads (InstanceId i)) (concat rs).
Proof.
  revert s s' l; induction rs as [|r rest IH]; intros s s' l H; cbn [collect_reservations] in H.
  - injection H as _ <-. symmetry; apply app_nil_r.
  - unfold bind at 1 in H.
    destruct (collect_instances w r s) as [[hd|e|] s1] eqn:Eh; try discriminate H.
    unfold bind in H.
    destruct (collect_reservations w rest s1) as [[tl|e|] s2] eqn:Et; try discriminate H.
    injection H as _ <-.
    rewrite (IH s1 s2 tl Et). cbn [concat]. rewrite flat_map_app, app_assoc. f_equal.
    clear Et IH. revert s s1 hd Eh; induction r as [|i is IHi]; intros s s1 hd Eh;
      cbn [collect_instances] in Eh.
    + injection Eh as _ <-. symmetry; apply app_nil_r.
    + unfold bind at 1 in Eh.
      destruct (get_protections_status w (InstanceId i) s) as [[p|e|] s3] eqn:Ep;
        try discriminate Eh.
      unfold bind in Eh.
      destruct (collect_instances w is s3) as [[tl'|e|] s4] eqn:Ei; try discriminate Eh.
      injection Eh as _ <-.
      apply get_protections_status_ok in Ep as [Tp _].
      rewrite (IHi s3 s4 tl' Ei), Tp. cbn [flat_map]. rewrite app_assoc. reflexivity.
Qed.

Lemma filter_attr_reads (insts : list instance_desc) :
  filter is_attribute_read (flat_map (fun i => attr_reads (InstanceId i)) insts) =
  flat_map (fun i => attr_reads (InstanceId i)) insts.
Proof. induction insts as [|i is IH]; [reflexivity|]. cbn. rewrite IH. reflexivity. Qed.

Lemma create_ami_ok_fields (i : inventory) (s : St) (o : backup_outcome) :
  fst (create_ami w i s) = Ok o ->
  bo_instance_name o = inv_name i /\ bo_instance_id o = inv_id i
  /\ bo_ami_name o = ami_name_of (inv_id i) (w_now w (clock s))
  /\ bo_backup_completed o = true
  /\ exists k, (k = S (clock s) \/ k = S (S (clock s)))
             /\ w_create_image w k (inv_id i) (bo_ami_name o)
                  (ami_description_of (w_now w (clock s))) = Returned (bo_ami_id o).
Proof.
  rewrite create_ami_result; cbn zeta. unfold after_tagging.
  destruct (w_create_image w (S (clock s)) _ _ _) as [a|[m|m]] eqn:E1.
  - destruct (w_create_tags _ _ _ _); intros H; [|discriminate H].
    injection H as <-. cbn. repeat split; auto.
    exists (S (clock s)). split; [left; reflexivity | exact E1].
  - destruct (w_create_image w (S (S (clock s))) _ _ _) as [a|[m'|m']] eqn:E2;
      try discriminate.
    destruct (w_create_tags _ _ _ _); intros H; [|discriminate H].
    injection H as <-. cbn. repeat split; auto.
    exists (S (S (clock s))). split; [right; reflexivity | exact E2].
  - discriminate.
Qed.

Lemma backup_instances_ok (insts : list inventory) (s s' : St) (outs : list backup_outcome) :
  backup_instances w insts s = (Ok outs, s') ->
  map (fun o => (bo_instance_name o, bo_instance_id o)) outs =
  map (fun i => (inv_name i, inv_id i)) insts.
Proof.
  revert s s' outs; induction insts as [|i rest IH]; intros s s' outs H.
  - injection H as <- _. reflexivity.
  - unfold backup_instances in H; cbn [for_each] in H. unfold bind at 1 in H.
    destruct (create_ami w i s) as [[o|e|] s1] eqn:Ec; try discriminate H.
    unfold bind in H.
    destruct (for_each (create_ami w) rest s1) as [[os|e|] s2] eqn:Er; try discriminate H.
    injection H as <- _.
    destruct (create_ami_ok_fields i s o) as [Hn [Hi _]]; [rewrite Ec; reflexivity|].
    cbn [map]. rewrite Hn, Hi, (IH s1 s2 os Er). reflexivity.
Qed.

Lemma string_length_append (a b : string) :
  String.length (a ++ b) = String.length a + String.length b.
Proof. induction a as [|c a IH]; cbn; [reflexivity | rewrite IH; reflexivity]. Qed.

Lemma string_append_cancel_r (a b c : string) : (a ++ c = b ++ c)%string -> a = b.
Proof.
  revert b; induction a as [|x a IH]; intros [|y b] H; cbn in H.
  - reflexivity.
  - apply (f_equal String.length) in H. cbn in H. rewrite string_length_append in H. lia.
  - apply (f_equal String.length) in H. cbn in H. rewrite string_length_append in H. lia.
  - injection H as -> H. f_equal. apply IH, H.
Qed.

Lemma string_append_cancel_l (p a b : string) : (p ++ a = p ++ b)%string -> a = b.
Proof.
  induction p as [|c p IH]; cbn; intros H; [exact H|]. injection H as H. apply IH, H.
Qed.

Lemma lower_ascii_y (c : ascii) :
  lower_ascii c = "y"%char -> c = "y"%char \/ c = "Y"%char.
Proof.
  destruct c as [[] [] [] [] [] [] [] []]; vm_compute; intros H;
    first [discriminate H | left; reflexivity | right; reflexivity].
Qed.

Lemma create_ami_emits (P : event -> bool) (i : inventory) :
  (forall a b c, P (ECreateImage a b c true false) = true) -> P (ESleep 5) = true ->
  (forall a b, P (ECreateTags a b) = true) ->
  emits_only P (create_ami w i).
Proof.
  intros HI HS HT.
  unfold create_ami, create_image, create_tags, sleep.
  apply emits_only_bind; [apply emits_only_datetime_now | intros now].
  apply emits_only_bind.
  - apply emits_only_try_except.
    + apply emits_only_bind; [apply emits_only_ask, HI | intros; apply emits_only_ret].
    + intros e. apply emits_only_bind; [apply emits_only_emit, HS | intros].
      apply emits_only_try_except.
      * apply emits_only_bind; [apply emits_only_ask, HI | intros; apply emits_only_ret].
      * intros e'. apply emits_only_bind; [apply emits_only_read_local | intros; apply emits_only_ret].
  - intros [a|early]; [|apply emits_only_ret].
    apply emits_only_bind; [apply emits_only_ask, HT | intros; apply emits_only_ret].
Qed.

Lemma terminate_one_emits (P : event -> bool) (o : backup_outcome) :
  (forall a, P (ETerminateInstances a) = true) -> P (ESleep 3) = true ->
  emits_only P (terminate_one w o).
Proof.
  intros HT HS. unfold terminate_one, sleep.
  apply emits_only_try_except; [|intros; apply emits_only_ret].
  apply emits_only_bind; [apply emits_only_ask, HT | intros r].
  apply emits_only_bind; [apply emits_only_emit, HS | intros _].
  apply emits_only_bind; [|intros; apply emits_only_ret].
  destruct r; [apply emits_only_raise | apply emits_only_ret].
Qed.

Lemma emits_only_trace {A} (P : event -> bool) (m : M A) (s s' : St) (r : result A) :
  emits_only P m -> m s = (r, s') -> exists tr, trace s' = trace s ++ tr /\ forallb P tr = true.
Proof. intros Hm H. destruct (Hm s) as [tr [E F]]. rewrite H in E. exists tr; auto. Qed.

(** Clearing both flags of every instance when every call succeeds. *)
Lemma clear_all_run (insts : list inventory) (s : St) :
  (forall k iid attr, w_modify_instance_attribute w k iid attr = Returned tt) ->
  for_each (fun i => disable_instance_protections w (inv_id i) true true) insts s =
  (Ok (map (fun _ => tt) insts),
   {| clock := clock s + 2 * length insts;
      trace := trace s ++ flat_map (fun i => clear_events (inv_id i)) insts |}).
Proof.
  intros Hm. revert s; induction insts as [|i rest IH]; intros [k tr].
  - cbn. rewrite Nat.add_0_r, app_nil_r. reflexivity.
  - cbn [for_each]. unfold bind at 1, disable_instance_protections, modify_instance_attribute.
    unfold bind at 1, ask. rewrite Hm. cbn [clock trace]. unfold bind at 1. rewrite Hm.
    unfold bind. rewrite IH. cbn. unfold ret. f_equal. f_equal; [lia | rewrite <- !app_assoc; reflexivity].
Qed.

(** The first event of [list_instances] is the filtered request. *)
Lemma list_instances_first_request (fuel : nat) (tags : list tag_filter) (s : St) :
  exists tr,
    trace (snd (list_instances w fuel tags s)) =
      trace s ++ EDescribeInstances {| rq_Filters := Some tags; rq_NextToken := None |} :: tr
    /\ forallb unfiltered_describe tr = true.
Proof.
  unfold list_instances, describe_instances, bind at 1, ask.
  destruct (w_describe_instances w (clock s) _) as [p0|e].
  - match goal with |- context [bind ?m ?k ?s0] => set (s1 := s0) end.
    destruct (emits_only_bind unfiltered_describe _ _
                (paginate_emits unfiltered_describe fuel p0 (Reservations p0)
                   (fun _ => eq_refl))
                (fun rs => collect_reservations_emits unfiltered_describe rs
                             (fun _ _ => eq_refl)) s1) as [tr [E F]].
    exists tr. split; [|exact F]. transitivity (trace s1 ++ tr); [exact E|].
    unfold s1; cbn [trace]. rewrite <- app_assoc. reflexivity.
  - exists []. split; reflexivity.
Qed.

End Traces.

Ltac emits_solve :=
  repeat match goal with
  | |- emits_only _ (bind _ _) => apply emits_only_bind; [|intros]
  | |- emits_only _ (ret _) => apply emits_only_ret
  | |- emits_only _ (raise _) => apply emits_only_raise
  | |- emits_only _ (emit _) => apply emits_only_emit; reflexivity
  | |- emits_only _ (input _ _) => apply emits_only_input; reflexivity
  | |- emits_only _ (display_data _) => apply emits_only_display_data; intros; reflexivity
  | |- emits_only _ (backup_instances _ _) =>
      apply emits_only_for_each; intros; apply create_ami_emits; intros; reflexivity
  | |- emits_only _ (terminate_instances _ _) =>
      apply emits_only_for_each; intros; apply terminate_one_emits; intros; reflexivity
  end.

(** ** The claims *)


(** C4: when the listed inventory has an instance with a protection flag,
    whatever the operator answers, the only events before the yes/no
    question are the read-only listing and the display of the inventory
    and its total: the question comes before any further step.  If the
    answer is not [y] (case-insensitively) the run exits right there, and
    no provider call that changes state (clearing flags, creating images
    or tags, terminating) has been made. *)
Theorem main_protection_gate (w : World) (fuel : nat) (st st1 : St)
    (insts : list inventory)
    (Hlist : list_instances w fuel main_tags st = (Ok insts, st1))
    (Hprot : exists i, In i insts /\ (inv_termination_protection i || inv_stop_protection i) = true) :
  (exists tr0 tr,
     trace st1 = trace st ++ tr0 /\ forallb readonly tr0 = true
     /\ trace (snd (main w fuel st)) =
        trace st1 ++ [EDisplay (length insts); ETotal (length insts);
                      EInput PromptDisableProtections] ++ tr)
  /\ (lower (w_input w (clock st1)) <> "y" ->
      exists tr,
        main w fuel st =
          (Raise SystemExit,
           {| clock := S (clock st1);
              trace := trace st ++ tr ++ [EInput PromptDisableProtections] |})
        /\ forallb readonly tr = true).
Proof.
  destruct (list_instances_trace w fuel main_tags st st1 _ Hlist) as [tr0 [E0 F0]].
  apply any_protection_In in Hprot.
  destruct insts as [|i0 rest]; [discriminate Hprot|].
  split.
  - exists tr0.
    unfold main. rewrite (bind_ok _ _ _ _ _ Hlist).
    erewrite bind_ok by reflexivity. cbn beta.
    erewrite bind_ok by reflexivity. cbn beta iota.
    rewrite Hprot.
    match goal with |- context [trace (snd (bind ?m ?k ?s))] =>
      destruct (bind_extends m k s) as [tr2 E2]; [intros; emits_solve|] end.
    rewrite E2. clear E2. cbn iota.
    erewrite bind_ok by reflexivity. cbn [clock trace].
    match goal with |- context [trace (snd (?m ?s))] =>
      assert (Hm : emits_only (fun _ => true) m) end.
    { destruct (String.eqb _ "y"); [|apply emits_only_raise].
      apply emits_only_bind.
      - apply (emits_only_mono no_termination); [reflexivity|].
        apply emits_only_for_each; intros; apply disable_instance_protections_no_termination.
      - intros _. apply emits_only_bind.
        + apply (emits_only_mono no_termination); [reflexivity|].
          apply list_instances_no_termination.
        + intros; emits_solve. }
    match goal with |- context [trace (snd (_ ?s))] =>
      destruct (Hm s) as [tr1 [E1 _]] end.
    exists (tr1 ++ tr2). split; [exact E0|]. split; [exact F0|].
    rewrite E1. cbn [trace]. rewrite <- !app_assoc. reflexivity.
  - intros Hrefuse.
    exists (tr0 ++ [EDisplay (length (i0 :: rest)); ETotal (length (i0 :: rest))]).
    split.
    + unfold main. rewrite (bind_ok _ _ _ _ _ Hlist).
      unfold display_data, emit, bind at 1 2 3. cbn [clock trace].
      rewrite Hprot.
      unfold bind at 1, input. cbn [clock trace].
      apply String.eqb_neq in Hrefuse. rewrite Hrefuse.
      unfold raise. rewrite E0, <- !app_assoc. reflexivity.
    + rewrite forallb_app, F0. reflexivity.
Qed.

(** C9: when the first listing finds no instance, the run ends right after
    printing the total: no prompt, no further provider call. *)
Theorem main_empty_inventory (w : World) (fuel : nat) (st st1 : St)
    (Hlist : list_instances w fuel main_tags st = (Ok [], st1)) :
  main w fuel st = (Ok tt, {| clock := clock st1; trace := trace st1 ++ [ETotal 0] |})
  /\ exists tr, trace st1 = trace st ++ tr /\ forallb readonly tr = true.
Proof.
  split.
  - unfold main. rewrite (bind_ok _ _ _ _ _ Hlist). reflexivity.
  - exact (list_instances_trace w fuel main_tags st st1 _ Hlist).
Qed.

(** C1 (the Termination Stage does not filter): given an outcome whose
    backup failed, [terminate_instances] still requests its termination
    and records a successful termination. *)
Theorem terminate_instances_terminates_failed_backup :
  terminate_instances world_ok [failed_backup] start =
  (Ok [{| to_instance_name := "web"; to_instance_id := "i-1";
          to_terminate_completed := true |}],
   {| clock := 1; trace := [ETerminateInstances "i-1"; ESleep 3] |}).
Proof. reflexivity. Qed.

(** C2: when both image-creation attempts are rejected with a
    [ClientError], [create_ami] does not return a failed outcome: the
    [return] reads [ami_id], which is unbound, and raises
    [UnboundLocalError]; the exception also ends [backup_instances]. *)
Theorem create_ami_double_rejection (w : World) (i : inventory) (s : St)
    (m1 m2 : string)
    (H1 : w_create_image w (S (clock s)) (inv_id i)
            (ami_name_of (inv_id i) (w_now w (clock s)))
            (ami_description_of (w_now w (clock s))) = Failed (ClientError m1))
    (H2 : w_create_image w (S (S (clock s))) (inv_id i)
            (ami_name_of (inv_id i) (w_now w (clock s)))
            (ami_description_of (w_now w (clock s))) = Failed (ClientError m2)) :
  fst (create_ami w i s) = Raise (UnboundLocalError "ami_id")
  /\ forall rest, fst (backup_instances w (i :: rest) s) = Raise (UnboundLocalError "ami_id").
Proof.
  assert (E : fst (create_ami w i s) = Raise (UnboundLocalError "ami_id")).
  { rewrite create_ami_result; cbn zeta. rewrite H1, H2. reflexivity. }
  split; [exact E|].
  intros rest. rewrite (backup_instances_raise w i rest s _ E). reflexivity.
Qed.

(** C3: with two instances whose first one is rejected twice,
    [backup_instances] returns no list at all, and the second instance
    is never attempted. *)
Theorem backup_instances_double_rejection_aborts :
  backup_instances world_rejecting [inv_web; inv_db] start =
  (Raise (UnboundLocalError "ami_id"),
   {| clock := 3;
      trace := [ECreateImage "i-1" (ami_name_of "i-1" noon) (ami_description_of noon) true false;
                ESleep 5;
                ECreateImage "i-1" (ami_name_of "i-1" noon) (ami_description_of noon) true false] |}).
Proof. reflexivity. Qed.

(** C5, counterexample: the image is created but tagging it fails; the
    provider error leaves [create_ami] and the whole batch, and the second
    instance is never attempted. *)
Theorem create_ami_tagging_failure_aborts :
  backup_instances world_untaggable [inv_web; inv_db] start =
  (Raise (ApiError throttled),
   {| clock := 3;
      trace := [ECreateImage "i-1" (ami_name_of "i-1" noon) (ami_description_of noon) true false;
                ECreateTags "ami-0001" (ami_name_of "i-1" noon)] |}).
Proof. reflexivity. Qed.

(** C5 (amended): once an image [a] is created, on the first attempt or on
    the retry, [create_ami] tags it; if tagging succeeds it returns
    [backup_completed = true] with [ami_id = a], and if tagging raises, the
    error propagates out of [create_ami] and ends [backup_instances] at
    that instance, wherever it stands in the batch: no later instance is
    attempted. *)
Theorem create_ami_tagging_outcome (w : World) (i : inventory) (s : St) :
  let now := w_now w (clock s) in
  let n := ami_name_of (inv_id i) now in
  let d := ami_description_of now in
  (forall a, w_create_image w (S (clock s)) (inv_id i) n d = Returned a ->
     fst (create_ami w i s) = after_tagging w i now (S (S (clock s))) a)
  /\ (forall m a, w_create_image w (S (clock s)) (inv_id i) n d = Failed (ClientError m) ->
       w_create_image w (S (S (clock s))) (inv_id i) n d = Returned a ->
       fst (create_ami w i s) = after_tagging w i now (S (S (S (clock s)))) a)
  /\ (forall pre post s0 outs e,
       backup_instances w pre s0 = (Ok outs, s) ->
       fst (create_ami w i s) = Raise e ->
       backup_instances w (pre ++ i :: post) s0 = (Raise e, snd (create_ami w i s))).
Proof.
  cbn zeta. split; [|split].
  - intros a H. rewrite create_ami_result; cbn zeta. rewrite H. reflexivity.
  - intros m a H1 H2. rewrite create_ami_result; cbn zeta. rewrite H1, H2. reflexivity.
  - intros pre post s0 outs e Hpre H. exact (for_each_app_raise (create_ami w) pre post i s0 s outs e Hpre H).
Qed.


(** C7: the image creation is attempted once more, after a 5 second sleep
    and with the same name and description, exactly when the first attempt
    raises a [ClientError], and never a third time; each element handed to
    [terminate_instances] gets exactly one termination request. *)
Theorem create_ami_retries_once (w : World) (i : inventory) (l : list backup_outcome)
    (s : St) :
  (let now := w_now w (clock s) in
   let attempt := ECreateImage (inv_id i) (ami_name_of (inv_id i) now)
                    (ami_description_of now) true false in
   exists rest,
     trace (snd (create_ami w i s)) =
       trace s
       ++ (if transient (w_create_image w (S (clock s)) (inv_id i)
                           (ami_name_of (inv_id i) now) (ami_description_of now))
           then [attempt; ESleep 5; attempt] else [attempt])
       ++ rest
     /\ forallb (fun e => negb (is_retry_step e)) rest = true)
  /\ filter is_terminate_event (trace (snd (terminate_instances w l s))) =
     filter is_terminate_event (trace s)
     ++ map (fun o => ETerminateInstances (bo_instance_id o)) l.
Proof.
  split; [apply create_ami_trace | apply terminate_instances_requests].
Qed.

(** C8: the [j]-th termination outcome is successful iff the state reported
    by the [j]-th termination request is [shutting-down]; a raising request
    gives [false]; every element is attempted whatever happened before. *)
Theorem terminate_instances_status (w : World) (l : list backup_outcome) (s : St) :
  fst (terminate_instances w l s) = Ok (expected_terminations w (clock s) l)
  /\ filter is_terminate_event (trace (snd (terminate_instances w l s))) =
     filter is_terminate_event (trace s)
     ++ map (fun o => ETerminateInstances (bo_instance_id o)) l.
Proof.
  split; [rewrite terminate_instances_run; reflexivity | apply terminate_instances_requests].
Qed.

(** C10: [terminate_instances] always returns one outcome per input
    element, in order, with that element's name and id. *)
Theorem terminate_instances_one_per_input (w : World) (l : list backup_outcome) (s : St) :
  exists outs,
    fst (terminate_instances w l s) = Ok outs
    /\ map (fun o => (to_instance_name o, to_instance_id o)) outs =
       map (fun i => (bo_instance_name i, bo_instance_id i)) l.
Proof.
  exists (expected_terminations w (clock s) l). split.
  - rewrite terminate_instances_run. reflexivity.
  - apply expected_terminations_ids.
Qed.

(** ** Witnesses: the hypotheses above hold on concrete runs *)

Lemma create_ami_double_rejection_witness :
  w_create_image world_rejecting 1 "i-1" (ami_name_of "i-1" noon) (ami_description_of noon)
    = Failed throttled
  /\ w_create_image world_rejecting 2 "i-1" (ami_name_of "i-1" noon) (ami_description_of noon)
    = Failed throttled
  /\ fst (create_ami world_rejecting inv_web start) = Raise (UnboundLocalError "ami_id")
  /\ forall rest, fst (backup_instances world_rejecting (inv_web :: rest) start)
                  = Raise (UnboundLocalError "ami_id").
Proof.
  split; [reflexivity|]. split; [reflexivity|].
  apply (create_ami_double_rejection world_rejecting inv_web start
           "RequestLimitExceeded" "RequestLimitExceeded"); reflexivity.
Defined.

Lemma create_ami_tagging_outcome_witness :
  let s := snd (backup_instances world_tagging_fails_late [inv_web] start) in
  (exists outs, backup_instances world_tagging_fails_late [inv_web] start = (Ok outs, s))
  /\ fst (create_ami world_tagging_fails_late inv_db s) = Raise (ApiError throttled)
  /\ backup_instances world_tagging_fails_late [inv_web; inv_db; inv_web] start
     = (Raise (ApiError throttled), snd (create_ami world_tagging_fails_late inv_db s)).
Proof.
  intros s.
  assert (Hpre : exists outs, backup_instances world_tagging_fails_late [inv_web] start
                              = (Ok outs, s)).
  { exists [{| bo_instance_name := "web"; bo_instance_id := "i-1"; bo_ami_id := "ami-0001";
               bo_ami_name := ami_name_of "i-1" noon; bo_backup_completed := true |}].
    unfold s. vm_compute. reflexivity. }
  split; [exact Hpre|]. destruct Hpre as [outs Hpre].
  assert (Hdb : fst (create_ami world_tagging_fails_late inv_db s) = Raise (ApiError throttled))
    by reflexivity.
  split; [exact Hdb|].
  exact (proj2 (proj2 (create_ami_tagging_outcome world_tagging_fails_late inv_db s))
           [inv_web] [inv_web] start outs _ Hpre Hdb).
Defined.

Lemma main_protection_gate_witness :
  let st1 := snd (list_instances world_protected 0 main_tags start) in
  list_instances world_protected 0 main_tags start = (Ok [protected_inventory], st1)
  /\ lower (w_input world_protected (clock st1)) <> "y"
  /\ (exists tr0 tr,
        trace st1 = trace start ++ tr0 /\ forallb readonly tr0 = true
        /\ trace (snd (main world_protected 0 start)) =
           trace st1 ++ [EDisplay 1; ETotal 1; EInput PromptDisableProtections] ++ tr)
  /\ exists tr,
       main world_protected 0 start =
         (Raise SystemExit,
          {| clock := S (clock st1);
             trace := trace start ++ tr ++ [EInput PromptDisableProtections] |})
       /\ forallb readonly tr = true.
Proof.
  intros st1.
  assert (Hlist : list_instances world_protected 0 main_tags start
                  = (Ok [protected_inventory], st1)) by reflexivity.
  assert (Hrefuse : lower (w_input world_protected (clock st1)) <> "y")
    by (simpl; discriminate).
  assert (Hprot : exists i, In i [protected_inventory]
                    /\ (inv_termination_protection i || inv_stop_protection i) = true)
    by (exists protected_inventory; split; [left; reflexivity | reflexivity]).
  destruct (main_protection_gate world_protected 0 start st1 [protected_inventory] Hlist Hprot)
    as [Hask Hexit].
  split; [exact Hlist|]. split; [exact Hrefuse|]. split; [exact Hask|].
  exact (Hexit Hrefuse).
Defined.


Lemma main_empty_inventory_witness :
  let st1 := snd (list_instances world_empty 0 main_tags start) in
  list_instances world_empty 0 main_tags start = (Ok [], st1)
  /\ main world_empty 0 start = (Ok tt, {| clock := clock st1; trace := trace st1 ++ [ETotal 0] |})
  /\ exists tr, trace st1 = trace start ++ tr /\ forallb readonly tr = true.
Proof.
  intros st1.
  assert (Hlist : list_instances world_empty 0 main_tags start = (Ok [], st1)) by reflexivity.
  split; [exact Hlist|].
  apply (main_empty_inventory world_empty 0 start st1). exact Hlist.
Defined.

(** ** Further properties of the script *)

Lemma bind_stops {A B} (m : M A) (k : A -> M B) (s s' : St) (r : result A) :
  m s = (r, s') -> (forall a, r <> Ok a) -> trace (snd (bind m k s)) = trace s'.
Proof.
  intros H Hr. unfold bind. rewrite H. destruct r as [a| |]; [destruct (Hr a eq_refl)|reflexivity|reflexivity].
Qed.

Lemma main_split (w : World) (fuel : nat) (s : St) :
  (exists tr, trace (snd (main w fuel s)) = trace s ++ tr /\ forallb no_termination tr = true)
  \/ exists insts s1 outs s2 tr0,
       trace s1 = trace s ++ tr0 /\ forallb no_termination tr0 = true
       /\ backup_instances w insts s1 = (Ok outs, s2)
       /\ main w fuel s =
          (display_data outs;;
           input w PromptContinueTerminate;;
           terminate_results <- terminate_instances w outs;;
           display_data terminate_results) s2.
Proof.
  destruct (list_instances_no_termination w fuel main_tags s) as [trl [Etl Ftl]].
  unfold main.
  destruct (list_instances w fuel main_tags s) as [[insts|e|] sl] eqn:El; cbn [snd] in Etl.
  2,3: left; exists trl; split; [|exact Ftl];
       rewrite (bind_stops _ _ _ _ _ El); [exact Etl | intros a; discriminate].
  rewrite (bind_ok _ _ _ _ _ El).
  destruct insts as [|i0 rest].
  { left. exists (trl ++ [ETotal 0]). split.
    - cbn. rewrite Etl, <- app_assoc. reflexivity.
    - rewrite forallb_app, Ftl. reflexivity. }
  erewrite bind_ok by reflexivity. cbn beta.
  erewrite bind_ok by reflexivity. cbn beta iota.
  match goal with |- context [bind ?G ?K ?s3] =>
    assert (HG : emits_only no_termination G); [|set (s3' := s3) in *] end.
  { destruct (any_protection (i0 :: rest)); [|apply emits_only_ret].
    apply emits_only_bind; [apply emits_only_input; reflexivity|intros u].
    destruct (String.eqb (lower u) "y"); [|apply emits_only_raise].
    apply emits_only_bind;
      [apply emits_only_for_each; intros; apply disable_instance_protections_no_termination|].
    intros _. apply emits_only_bind; [apply list_instances_no_termination|intros l].
    apply emits_only_bind; [apply emits_only_display_data; reflexivity|intros _].
    apply emits_only_ret. }
  destruct (HG s3') as [trg [Etg Ftg]].
  assert (E3 : trace s3' = trace s ++ trl ++ [EDisplay (length (i0 :: rest)); ETotal (length (i0 :: rest))]).
  { unfold s3'; cbn [trace]. rewrite Etl, <- !app_assoc. reflexivity. }
  match goal with |- context [bind ?G ?K s3'] =>
    destruct (G s3') as [[insts2|e|] s4] eqn:EG end; cbn [snd] in Etg.
  2,3: left; exists ((trl ++ [EDisplay (length (i0 :: rest)); ETotal (length (i0 :: rest))]) ++ trg);
       split; [rewrite (bind_stops _ _ _ _ _ EG); [|intros a; discriminate];
               rewrite Etg, E3, <- !app_assoc; reflexivity
              | rewrite !forallb_app, Ftl, Ftg; reflexivity].
  rewrite (bind_ok _ _ _ _ _ EG).
  erewrite bind_ok by reflexivity. cbn beta.
  match goal with |- context [bind (backup_instances w insts2) ?K ?s5] =>
    set (s5' := s5) in *;
    destruct (backup_instances_no_termination w insts2 s5') as [trb [Etb Ftb]];
    destruct (backup_instances w insts2 s5') as [[outs|e|] s6] eqn:EB end; cbn [snd] in Etb.
  2,3: left; exists ((trl ++ [EDisplay (length (i0 :: rest)); ETotal (length (i0 :: rest))]) ++ trg
                     ++ [EInput PromptContinueBackup] ++ trb);
       split; [rewrite (bind_stops _ _ _ _ _ EB); [|intros a; discriminate];
               rewrite Etb; unfold s5'; cbn [trace]; rewrite Etg, E3, <- !app_assoc; reflexivity
              | rewrite !forallb_app, Ftl, Ftg, Ftb; reflexivity].
  right. exists insts2, s5', outs, s6,
    ((trl ++ [EDisplay (length (i0 :: rest)); ETotal (length (i0 :: rest))]) ++ trg
     ++ [EInput PromptContinueBackup]).
  split; [unfold s5'; cbn [trace]; rewrite Etg, E3, <- !app_assoc; reflexivity|].
  split; [rewrite !forallb_app, Ftl, Ftg; reflexivity|].
  split; [exact EB|].
  rewrite (bind_ok _ _ _ _ _ EB). reflexivity.
Qed.

Lemma display_data_run {A} (d : list A) (s : St) :
  display_data d s =
  (Ok tt, {| clock := clock s;
             trace := trace s ++ match d with [] => [] | _ :: _ => [EDisplay (length d)] end |}).
Proof. destruct d; cbn; [rewrite app_nil_r; destruct s; reflexivity | reflexivity]. Qed.

Lemma termination_stage_requests (w : World) (outs : list backup_outcome) (s : St) :
  filter is_terminate_event
    (trace (snd ((display_data outs;;
                  input w PromptContinueTerminate;;
                  terminate_results <- terminate_instances w outs;;
                  display_data terminate_results) s))) =
  filter is_terminate_event (trace s) ++ map (fun o => ETerminateInstances (bo_instance_id o)) outs.
Proof.
  rewrite (bind_ok _ _ _ _ _ (display_data_run outs s)).
  erewrite bind_ok by reflexivity.
  match goal with |- context [bind (terminate_instances w outs) _ ?s'] =>
    rewrite (bind_ok _ _ _ _ _ (terminate_instances_run w outs s')) end.
  rewrite display_data_run. cbn [snd trace clock].
  match goal with |- context [expected_termination_trace w ?k outs] =>
    pose proof (terminate_instances_requests w outs {| clock := k; trace := [] |}) as R end.
  rewrite terminate_instances_run in R. cbn [snd trace clock app] in R.
  assert (D : forall {A} (d : list A) n,
             filter is_terminate_event (match d with [] => [] | _ :: _ => [EDisplay n] end) = []).
  { intros A d n; destruct d; reflexivity. }
  rewrite !filter_app, R, D, D. cbn [filter is_terminate_event].
  rewrite !app_nil_r. reflexivity.
Qed.

(** Every termination request [main] makes in a run is for an outcome of
    the list [backup_instances] returned in that same run, and all of
    these outcomes have [backup_completed = True]: the run goes on from
    the very state [backup_instances] returned in, made no termination
    request before that call, and hands that list to
    [terminate_instances]. *)
Theorem main_terminates_only_backed_up (w : World) (fuel : nat) (s : St) (iid : string)
    (Hreq : In (ETerminateInstances iid) (trace (snd (main w fuel s))))
    (Hfresh : ~ In (ETerminateInstances iid) (trace s)) :
  exists insts s1 outs s2 tr0,
    trace s1 = trace s ++ tr0 /\ forallb no_termination tr0 = true
    /\ backup_instances w insts s1 = (Ok outs, s2)
    /\ forallb bo_backup_completed outs = true
    /\ In iid (map bo_instance_id outs)
    /\ main w fuel s =
       (display_data outs;;
        input w PromptContinueTerminate;;
        terminate_results <- terminate_instances w outs;;
        display_data terminate_results) s2.
Proof.
  destruct (main_split w fuel s)
    as [[tr [E F]] | [insts [s1 [outs [s2 [tr0 [E1 [F1 [EB EM]]]]]]]]].
  - exfalso. rewrite E in Hreq. apply in_app_or in Hreq as [H|H]; [exact (Hfresh H)|].
    pose proof (proj1 (forallb_forall _ _) F _ H) as C. discriminate C.
  - exists insts, s1, outs, s2, tr0.
    split; [exact E1|]. split; [exact F1|]. split; [exact EB|].
    split; [exact (backup_instances_completed w insts s1 outs s2 EB)|].
    split; [|exact EM].
    rewrite EM in Hreq.
    assert (Hf := proj2 (filter_In is_terminate_event _ _) (conj Hreq eq_refl)).
    clear Hreq. rewrite termination_stage_requests in Hf.
    destruct (backup_instances_no_termination w insts s1) as [trb [Eb Fb]].
    rewrite EB in Eb. cbn [snd] in Eb.
    rewrite Eb, E1, !filter_app, (filter_no_termination tr0 F1), (filter_no_termination trb Fb),
      !app_nil_r in Hf.
    apply in_app_or in Hf as [H|H].
    + apply filter_In in H as [H _]. destruct (Hfresh H).
    + apply in_map_iff in H as [o [Eo Ho]]. injection Eo as <-. apply in_map, Ho.
Qed.

(** [list_instances] reads both protection attributes of every instance of
    every page it fetched, in order, including the instances it then drops
    because of their state. *)
Theorem list_instances_reads_every_instance (w : World) (fuel : nat)
    (tags : list tag_filter) (s s' : St) (l : list inventory)
    (Hrun : list_instances w fuel tags s = (Ok l, s')) :
  exists p0 more k',
    w_describe_instances w (clock s) {| rq_Filters := Some tags; rq_NextToken := None |}
      = Returned p0
    /\ fetched_rest w (S (clock s)) p0 more k'
    /\ filter is_attribute_read (trace s') =
       filter is_attribute_read (trace s)
       ++ flat_map (fun i => attr_reads (InstanceId i)) (concat (Reservations p0 ++ more)).
Proof.
  unfold list_instances, describe_instances, bind at 1, ask in Hrun.
  destruct (w_describe_instances w (clock s) _) as [p0|e] eqn:E0; [|discriminate Hrun].
  unfold bind in Hrun.
  set (s0 := {| clock := S (clock s); trace := trace s ++ _ |}) in Hrun.
  destruct (paginate_emits w (fun e => negb (is_attribute_read e)) fuel p0 (Reservations p0)
              (fun _ => eq_refl) s0) as [tr [Etr Ftr]].
  destruct (paginate w fuel p0 (Reservations p0) s0) as [[rs|e|] s1] eqn:Ep;
    try discriminate Hrun.
  cbn [snd] in Etr.
  apply paginate_fetched in Ep as [more [Hrs Hf]].
  exists p0, more, (clock s1). split; [reflexivity|]. split; [exact Hf|].
  rewrite (collect_reservations_reads w rs s1 s' l Hrun), Etr, Hrs.
  unfold s0; cbn [trace]. rewrite !filter_app, filter_attr_reads.
  replace (filter is_attribute_read tr) with (@nil event).
  - cbn. rewrite !app_nil_r. reflexivity.
  - clear -Ftr. induction tr as [|e tr IH]; [reflexivity|].
    cbn in Ftr |- *. destruct (is_attribute_read e); [discriminate Ftr|]. apply IH, Ftr.
Qed.

(** [list_instances] passes the tag filter only to its first
    [describe_instances] call: every later call (the pagination loop)
    carries no [Filters]. *)
Theorem list_instances_continuations_unfiltered (w : World) (fuel : nat)
    (tags : list tag_filter) (s : St) :
  exists tr,
    trace (snd (list_instances w fuel tags s)) =
      trace s ++ EDescribeInstances {| rq_Filters := Some tags; rq_NextToken := None |} :: tr
    /\ forallb unfiltered_describe tr = true.
Proof. apply list_instances_first_request. Qed.

(** Every record [list_instances] returns is in state [running],
    [stopping] or [stopped]. *)
Theorem list_instances_actionable (w : World) (fuel : nat) (tags : list tag_filter)
    (s s' : St) (l : list inventory)
    (Hrun : list_instances w fuel tags s = (Ok l, s')) :
  forallb (fun r => is_actionable_state (inv_state r)) l = true.
Proof.
  unfold list_instances, describe_instances, bind at 1, ask in Hrun.
  destruct (w_describe_instances w (clock s) _) as [p0|e]; [|discriminate Hrun].
  unfold bind in Hrun.
  destruct (paginate w fuel p0 (Reservations p0) _) as [[rs|e|] s1]; try discriminate Hrun.
  apply collect_reservations_keys in Hrun.
  apply (f_equal (map (fun k => snd k))) in Hrun. rewrite !map_map in Hrun.
  assert (Hst : map inv_state l =
                map StateName (filter (fun i => is_actionable_state (StateName i)) (concat rs))).
  { exact Hrun. }
  clear Hrun.
  generalize dependent l.
  induction (concat rs) as [|i is IH]; intros l Hst.
  - destruct l; [reflexivity|discriminate Hst].
  - cbn [filter] in Hst. destruct (is_actionable_state (StateName i)) eqn:Ea.
    + destruct l as [|r l]; [discriminate Hst|]. injection Hst as Hr Hl.
      cbn [forallb]. rewrite Hr, Ea. apply IH, Hl.
    + apply IH, Hst.
Qed.

(** Any outcome [create_ami] returns carries the instance's name and id,
    the image name built from the instance id and the clock read at the
    start, [backup_completed = True], and the image id answered by one of
    the (at most two) [create_image] calls made for that instance with that
    name. *)
Theorem create_ami_outcome_fields (w : World) (i : inventory) (s : St) (o : backup_outcome)
    (Hok : fst (create_ami w i s) = Ok o) :
  bo_instance_name o = inv_name i /\ bo_instance_id o = inv_id i
  /\ bo_ami_name o = ami_name_of (inv_id i) (w_now w (clock s))
  /\ bo_backup_completed o = true
  /\ exists k, (k = S (clock s) \/ k = S (S (clock s)))
             /\ w_create_image w k (inv_id i) (bo_ami_name o)
                  (ami_description_of (w_now w (clock s))) = Returned (bo_ami_id o).
Proof. exact (create_ami_ok_fields w i s o Hok). Qed.

(** When [backup_instances] returns, it returns one outcome per instance,
    in order, with that instance's name and id, and every one of them has
    [backup_completed = True]. *)
Theorem backup_instances_outcomes (w : World) (insts : list inventory) (s s' : St)
    (outs : list backup_outcome)
    (Hrun : backup_instances w insts s = (Ok outs, s')) :
  map (fun o => (bo_instance_name o, bo_instance_id o)) outs =
  map (fun i => (inv_name i, inv_id i)) insts
  /\ forallb bo_backup_completed outs = true.
Proof.
  split; [exact (backup_instances_ok w insts s s' outs Hrun)|].
  exact (backup_instances_completed w insts s outs s' Hrun).
Qed.

(** Two different instance ids give different image names for the same
    timestamp. *)
Theorem ami_name_of_injective (id1 id2 : string) (now : timestamp) (Hne : id1 <> id2) :
  ami_name_of id1 now <> ami_name_of id2 now.
Proof.
  unfold ami_name_of. intros H.
  apply string_append_cancel_l, string_append_cancel_r in H. exact (Hne H).
Qed.

(** The protection prompt is answered affirmatively exactly by [y] and [Y]. *)
Theorem lower_is_y (u : string) : lower u = "y" <-> u = "y" \/ u = "Y".
Proof.
  split.
  - destruct u as [|c [|c' r]]; cbn; intros H; try discriminate H.
    injection H as Hc. destruct (lower_ascii_y c Hc) as [-> | ->]; auto.
  - intros [-> | ->]; reflexivity.
Qed.

(** [get_tag_value] returns the value of the first tag with the key, and
    ['N/A'] when no tag has it. *)
Theorem get_tag_value_first (key : string) (tags : list tag) :
  (forall pre t post, tags = pre ++ t :: post -> Key t = key ->
     Forall (fun u => Key u <> key) pre -> get_tag_value key tags = Value t)
  /\ (Forall (fun u => Key u <> key) tags -> get_tag_value key tags = "N/A").
Proof.
  split.
  - intros pre t post -> Ht Hpre. induction Hpre as [|u pre Hu Hpre IH]; cbn.
    + rewrite Ht, String.eqb_refl. reflexivity.
    + apply String.eqb_neq in Hu. rewrite Hu. exact IH.
  - intros H. induction H as [|u tags Hu H IH]; cbn; [reflexivity|].
    apply String.eqb_neq in Hu. rewrite Hu. exact IH.
Qed.

(** When the first listing finds a protected instance and the operator
    answers [y]/[Y], [main] clears both flags of every listed instance, in
    order (each [disable_instance_protections] call succeeding), and then
    lists the instances again with the same tag filter before anything
    else. *)
Theorem main_affirm_clears_then_relists (w : World) (fuel : nat) (st st1 : St)
    (insts : list inventory)
    (Hlist : list_instances w fuel main_tags st = (Ok insts, st1))
    (Hprot : exists i, In i insts /\ (inv_termination_protection i || inv_stop_protection i) = true)
    (Hyes : lower (w_input w (clock st1)) = "y")
    (Hmodify : forall k iid attr, w_modify_instance_attribute w k iid attr = Returned tt) :
  exists tr,
    trace (snd (main w fuel st)) =
      trace st1 ++ [EDisplay (length insts); ETotal (length insts); EInput PromptDisableProtections]
      ++ flat_map (fun i => clear_events (inv_id i)) insts
      ++ EDescribeInstances {| rq_Filters := Some main_tags; rq_NextToken := None |} :: tr.
Proof.
  apply any_protection_In in Hprot. apply String.eqb_eq in Hyes.
  destruct insts as [|i0 rest]; [discriminate Hprot|].
  unfold main. rewrite (bind_ok _ _ _ _ _ Hlist).
  erewrite bind_ok by reflexivity. cbn beta.
  erewrite bind_ok by reflexivity. cbn beta iota.
  rewrite Hprot.
  match goal with |- context [trace (snd (bind ?m ?k ?s))] =>
    destruct (bind_extends m k s) as [tr3 E3]; [intros; emits_solve|] end.
  rewrite E3. clear E3. cbn iota.
  erewrite bind_ok by reflexivity. cbn [clock trace]. rewrite Hyes.
  erewrite bind_ok by (apply (clear_all_run w (i0 :: rest) _ Hmodify)).
  match goal with |- context [trace (snd (bind ?m ?k ?s))] =>
    destruct (bind_extends m k s) as [tr2 E2]; [intros; emits_solve|] end.
  rewrite E2. clear E2.
  match goal with |- context [list_instances w fuel main_tags ?s3] =>
    destruct (list_instances_first_request w fuel main_tags s3) as [tr1 [E1 _]] end.
  rewrite E1. cbn [trace]. exists (tr1 ++ tr2 ++ tr3).
  rewrite <- !app_assoc. reflexivity.
Qed.

(** When no listed instance has a protection flag set, [main] skips the
    guard: after the first listing it clears no flag, asks no yes/no
    question, and neither lists the instances nor reads their attributes
    again. *)
Theorem main_unprotected_skips_guard (w : World) (fuel : nat) (st st1 : St)
    (insts : list inventory)
    (Hlist : list_instances w fuel main_tags st = (Ok insts, st1))
    (Hnone : forallb (fun i => negb (inv_termination_protection i || inv_stop_protection i)) insts
             = true) :
  exists tr, trace (snd (main w fuel st)) = trace st1 ++ tr /\ forallb guard_free tr = true.
Proof.
  apply any_protection_none in Hnone.
  unfold main. rewrite (bind_ok _ _ _ _ _ Hlist).
  match goal with |- exists tr, trace (snd (?m st1)) = _ /\ _ =>
    enough (Hm : emits_only guard_free m) by exact (Hm st1) end.
  emits_solve. destruct insts as [|i0 rest]; [apply emits_only_ret|].
  rewrite Hnone. emits_solve.
Qed.

(** A provider error while clearing the first instance's termination
    protection is not caught: [main] stops with it right there, before
    any backup or termination request. *)
Theorem main_clear_failure_aborts (w : World) (fuel : nat) (st st1 : St)
    (i0 : inventory) (rest : list inventory) (e : api_error)
    (Hlist : list_instances w fuel main_tags st = (Ok (i0 :: rest), st1))
    (Hprot : exists i, In i (i0 :: rest) /\ (inv_termination_protection i || inv_stop_protection i) = true)
    (Hyes : lower (w_input w (clock st1)) = "y")
    (Hfail : w_modify_instance_attribute w (S (clock st1)) (inv_id i0) "disableApiTermination"
             = Failed e) :
  main w fuel st =
    (Raise (ApiError e),
     {| clock := S (S (clock st1));
        trace := trace st1 ++ [EDisplay (S (length rest)); ETotal (S (length rest));
                               EInput PromptDisableProtections;
                               EModifyInstanceAttribute (inv_id i0) "disableApiTermination"] |}).
Proof.
  apply any_protection_In in Hprot. apply String.eqb_eq in Hyes.
  unfold main. rewrite (bind_ok _ _ _ _ _ Hlist).
  erewrite bind_ok by reflexivity. cbn beta.
  erewrite bind_ok by reflexivity. cbn beta iota.
  rewrite Hprot.
  unfold bind at 1. erewrite bind_ok by reflexivity. cbn [clock trace]. rewrite Hyes.
  cbn [for_each]. unfold disable_instance_protections, modify_instance_attribute, ask, bind.
  cbn [clock trace]. rewrite Hfail. cbn beta iota. rewrite <- !app_assoc. reflexivity.
Qed.

(** ** Witnesses of the further properties *)

Lemma list_instances_reads_every_instance_witness :
  let run := list_instances world_gone 0 main_tags start in
  run = (Ok [], snd run)
  /\ exists p0 more k',
       w_describe_instances world_gone (clock start)
         {| rq_Filters := Some main_tags; rq_NextToken := None |} = Returned p0
       /\ fetched_rest world_gone (S (clock start)) p0 more k'
       /\ filter is_attribute_read (trace (snd run)) =
          filter is_attribute_read (trace start)
          ++ flat_map (fun i => attr_reads (InstanceId i)) (concat (Reservations p0 ++ more)).
Proof.
  intros run.
  assert (Hrun : run = (Ok [], snd run)) by reflexivity.
  split; [exact Hrun|].
  apply (list_instances_reads_every_instance world_gone 0 main_tags start (snd run) []).
  exact Hrun.
Defined.

Lemma list_instances_actionable_witness :
  let run := list_instances world_paged 1 main_tags start in
  run = (Ok [inv_web; inv_db], snd run)
  /\ forallb (fun r => is_actionable_state (inv_state r)) [inv_web; inv_db] = true.
Proof.
  intros run.
  assert (Hrun : run = (Ok [inv_web; inv_db], snd run)) by reflexivity.
  split; [exact Hrun|].
  apply (list_instances_actionable world_paged 1 main_tags start (snd run)). exact Hrun.
Defined.

Lemma create_ami_outcome_fields_witness :
  let o := {| bo_instance_name := "web"; bo_instance_id := "i-1"; bo_ami_id := "ami-0001";
              bo_ami_name := ami_name_of "i-1" noon; bo_backup_completed := true |} in
  fst (create_ami world_ok inv_web start) = Ok o
  /\ bo_instance_name o = inv_name inv_web /\ bo_instance_id o = inv_id inv_web
  /\ bo_ami_name o = ami_name_of (inv_id inv_web) (w_now world_ok (clock start))
  /\ bo_backup_completed o = true
  /\ exists k, (k = S (clock start) \/ k = S (S (clock start)))
             /\ w_create_image world_ok k (inv_id inv_web) (bo_ami_name o)
                  (ami_description_of (w_now world_ok (clock start))) = Returned (bo_ami_id o).
Proof.
  intros o.
  assert (Hok : fst (create_ami world_ok inv_web start) = Ok o) by reflexivity.
  split; [exact Hok|].
  apply (create_ami_outcome_fields world_ok inv_web start o). exact Hok.
Defined.

Lemma backup_instances_outcomes_witness :
  let run := backup_instances world_ok [inv_web; inv_db] start in
  exists outs, run = (Ok outs, snd run)
  /\ map (fun o => (bo_instance_name o, bo_instance_id o)) outs =
     map (fun i => (inv_name i, inv_id i)) [inv_web; inv_db]
  /\ forallb bo_backup_completed outs = true.
Proof.
  intros run. eexists.
  assert (Hrun : run = (Ok _, snd run)) by reflexivity.
  split; [exact Hrun|].
  apply (backup_instances_outcomes world_ok [inv_web; inv_db] start (snd run)). exact Hrun.
Defined.

Lemma ami_name_of_injective_witness :
  "i-1" <> "i-2" /\ ami_name_of "i-1" noon <> ami_name_of "i-2" noon.
Proof.
  split; [discriminate|].
  apply (ami_name_of_injective "i-1" "i-2" noon). discriminate.
Defined.

Lemma main_affirm_clears_then_relists_witness :
  let st1 := snd (list_instances world_affirming 0 main_tags start) in
  list_instances world_affirming 0 main_tags start = (Ok [protected_inventory], st1)
  /\ lower (w_input world_affirming (clock st1)) = "y"
  /\ exists tr,
       trace (snd (main world_affirming 0 start)) =
         trace st1 ++ [EDisplay 1; ETotal 1; EInput PromptDisableProtections]
         ++ clear_events "i-1"
         ++ EDescribeInstances {| rq_Filters := Some main_tags; rq_NextToken := None |} :: tr.
Proof.
  intros st1.
  assert (Hlist : list_instances world_affirming 0 main_tags start
                  = (Ok [protected_inventory], st1)) by reflexivity.
  assert (Hyes : lower (w_input world_affirming (clock st1)) = "y") by reflexivity.
  split; [exact Hlist|]. split; [exact Hyes|].
  apply (main_affirm_clears_then_relists world_affirming 0 start st1 [protected_inventory]).
  - exact Hlist.
  - exists protected_inventory. split; [left; reflexivity | reflexivity].
  - exact Hyes.
  - intros; reflexivity.
Defined.

Lemma main_unprotected_skips_guard_witness :
  let st1 := snd (list_instances world_ok 0 main_tags start) in
  list_instances world_ok 0 main_tags start = (Ok [inv_web], st1)
  /\ exists tr, trace (snd (main world_ok 0 start)) = trace st1 ++ tr
                /\ forallb guard_free tr = true.
Proof.
  intros st1.
  assert (Hlist : list_instances world_ok 0 main_tags start = (Ok [inv_web], st1))
    by reflexivity.
  split; [exact Hlist|].
  apply (main_unprotected_skips_guard world_ok 0 start st1 [inv_web]); [exact Hlist|reflexivity].
Defined.

Lemma main_clear_failure_aborts_witness :
  let st1 := snd (list_instances world_locked 0 main_tags start) in
  list_instances world_locked 0 main_tags start = (Ok [protected_inventory], st1)
  /\ main world_locked 0 start =
       (Raise (ApiError throttled),
        {| clock := S (S (clock st1));
           trace := trace st1 ++ [EDisplay 1; ETotal 1; EInput PromptDisableProtections;
                                  EModifyInstanceAttribute "i-1" "disableApiTermination"] |}).
Proof.
  intros st1.
  assert (Hlist : list_instances world_locked 0 main_tags start
                  = (Ok [protected_inventory], st1)) by reflexivity.
  split; [exact Hlist|].
  apply (main_clear_failure_aborts world_locked 0 start st1 protected_inventory [] throttled).
  - exact Hlist.
  - exists protected_inventory. split; [left; reflexivity | reflexivity].
  - reflexivity.
  - reflexivity.
Defined.

Lemma main_terminates_only_backed_up_witness :
  In (ETerminateInstances "i-1") (trace (snd (main world_ok 0 start)))
  /\ ~ In (ETerminateInstances "i-1") (trace start)
  /\ exists insts s1 outs s2 tr0,
       trace s1 = trace start ++ tr0 /\ forallb no_termination tr0 = true
       /\ backup_instances world_ok insts s1 = (Ok outs, s2)
       /\ forallb bo_backup_completed outs = true
       /\ In "i-1" (map bo_instance_id outs)
       /\ main world_ok 0 start =
          (display_data outs;;
           input world_ok PromptContinueTerminate;;
           terminate_results <- terminate_instances world_ok outs;;
           display_data terminate_results) s2.
Proof.
  assert (Hreq : In (ETerminateInstances "i-1") (trace (snd (main world_ok 0 start)))).
  { vm_compute. repeat (first [left; reflexivity | right]). }
  assert (Hfresh : ~ In (ETerminateInstances "i-1") (trace start)) by (intros []).
  split; [exact Hreq|]. split; [exact Hfresh|].
  exact (main_terminates_only_backed_up world_ok 0 start "i-1" Hreq Hfresh).
Defined.
